(** * Extended Kalman filter for the CTRV vehicle model

    A shallow embedding of the filter loop of
    [Extended-Kalman-Filter-CTRV2.ipynb] (the cell starting
    [for filterstep in range(m):]) and of the configuration cells it reads
    ([dt], [P], [Q], [R], [I]).

    Numbers are real numbers: every [float] of the notebook is an element of
    [R] and [+], [-], [*], [/], [%], [np.sin], [np.cos], [np.pi] are the exact
    operations.  Rounding is not modelled.  The only operation of the loop
    that can raise is [np.linalg.inv], which is modelled with [option].
    numpy does not raise on a zero divisor: it yields inf or nan and carries
    on.  The definitions of the loop body use the division of [R] and
    describe a pass whose divisor [x[4]] is not zero; [checked_filterstep]
    and [checked_run] add the pass that divides by zero, whose values are
    not real numbers. *)

From Stdlib Require Import Reals List ZArith Bool Lra Lia.
Import ListNotations.
Local Open Scope R_scope.

(** ** The part of numpy the loop uses *)

Module Np.

(** [np.matrix]: a list of rows.  The state [x] is a 5x1 matrix, the
    measurement [Z] a 2x1 matrix. *)
Definition matrix : Type := list (list R).

Definition shape (m n : nat) (A : matrix) : Prop :=
  length A = m /\ Forall (fun r => length r = n) A.

Fixpoint dot (u v : list R) : R :=
  match u, v with
  | a :: u', b :: v' => a * b + dot u' v'
  | _, _ => 0
  end.

Definition col (j : nat) (A : matrix) : list R :=
  map (fun r => nth j r 0) A.

Definition ncols (A : matrix) : nat := length (hd [] A).

(** [A.T] *)
Definition T (A : matrix) : matrix :=
  map (fun j => col j A) (seq 0 (ncols A)).

(** [A*B] on [np.matrix] is the matrix product.  numpy raises when the
    inner dimensions differ; the statements below carry the shapes as
    hypotheses, and on such arguments this is the product. *)
Definition mul (A B : matrix) : matrix :=
  map (fun r => map (fun c => dot r c) (T B)) A.

Fixpoint zip (f : R -> R -> R) (u v : list R) : list R :=
  match u, v with
  | a :: u', b :: v' => f a b :: zip f u' v'
  | _, _ => []
  end.

Fixpoint zip2 (f : R -> R -> R) (A B : matrix) : matrix :=
  match A, B with
  | r :: A', s :: B' => zip f r s :: zip2 f A' B'
  | _, _ => []
  end.

Definition add : matrix -> matrix -> matrix := zip2 Rplus.
Definition sub : matrix -> matrix -> matrix := zip2 Rminus.

(** [np.diag([d0, d1, ...])] *)
Definition diag (d : list R) : matrix :=
  map (fun i => map (fun j => if Nat.eqb i j then nth i d 0 else 0)
                    (seq 0 (length d)))
      (seq 0 (length d)).

(** [np.eye(n)] *)
Definition eye (n : nat) : matrix := diag (repeat 1 n).

(** [float(x[i])] for a column vector [x]. *)
Definition item (x : matrix) (i : nat) : R := nth 0 (nth i x []) 0.

(** [A[i,j]] *)
Definition at_ (A : matrix) (i j : nat) : R := nth j (nth i A []) 0.

Fixpoint set_nth {A : Type} (i : nat) (a : A) (l : list A) {struct l}
  : list A :=
  match l, i with
  | [], _ => []
  | _ :: l', O => a :: l'
  | b :: l', S i' => b :: set_nth i' a l'
  end.

(** [x[i] = v], the in-place assignment to one row of a column vector.
    The loop only assigns to rows 0..4 of a 5x1 matrix, so the index is
    always in range. *)
Definition setitem (x : matrix) (i : nat) (v : R) : matrix :=
  set_nth i [v] x.

(** [a % b] on floats is the floored remainder, which for the positive
    divisor of the loop lies in [0, b). *)
Definition mod_ (a b : R) : R := a - b * IZR (Int_part (a / b)).

Definition det2 (A : matrix) : R :=
  at_ A 0 0 * at_ A 1 1 - at_ A 0 1 * at_ A 1 0.

(** The adjugate of a 2x2 matrix over its determinant. *)
Definition adj_over_det (A : matrix) : matrix :=
  [[ at_ A 1 1 / det2 A; - at_ A 0 1 / det2 A];
   [- at_ A 1 0 / det2 A;  at_ A 0 0 / det2 A]].

(** [np.linalg.inv] on the 2x2 matrix [S] (the only matrix the loop
    inverts).  A singular matrix makes numpy raise [LinAlgError]; that is
    [None].  Otherwise the inverse is the adjugate over the determinant. *)
Definition inv (A : matrix) : option matrix :=
  if Req_dec_T (det2 A) 0 then None else Some (adj_over_det A).

End Np.

Import Np.

(** ** Configuration cells *)

(** [dt = 1.0/50.0] *)
Definition dt : R := 1 / 50.

(** [P = np.diag([1000.0, 1000.0, 1000.0, 1000.0, 1000.0])] *)
Definition P0 : matrix := diag [1000; 1000; 1000; 1000; 1000].

Definition sGPS : R := (1/2) * (88/10) * dt ^ 2.
Definition sCourse : R := (1/10) * dt.
Definition sVelocity : R := (88/10) * dt.
Definition sYaw : R := 1 * dt.

(** [Q = np.diag([sGPS**2, sGPS**2, sCourse**2, sVelocity**2, sYaw**2])] *)
Definition Q : matrix :=
  diag [sGPS ^ 2; sGPS ^ 2; sCourse ^ 2; sVelocity ^ 2; sYaw ^ 2].

Definition varGPS : R := 6.

(** [R = np.matrix([[varGPS**2, 0.0], [0.0, varGPS**2]])] *)
Definition R_ : matrix := [[varGPS ^ 2; 0]; [0; varGPS ^ 2]].

(** [I = np.eye(numstates)] *)
Definition numstates : nat := 5.
Definition I_ : matrix := eye numstates.

(** ** One pass of the loop body *)

(** What the loop reads at index [filterstep]: [yawrate[filterstep]],
    [GPS[filterstep]] and the column [measurements[:,filterstep]]. *)
Record Sample : Type := mkSample {
  yawrate : R;
  GPS : bool;
  mx : R;
  my : R
}.

(** The configuration the loop reads from globals.  The notebook binds them
    once; they are parameters here so that other settings can be stated. *)
Record Config : Type := mkConfig {
  c_dt : R;
  c_Q : matrix;
  c_R : matrix
}.

Definition notebook : Config := mkConfig dt Q R_.

(** The straight-driving assignments, in program order on the same [x]. *)
Definition straight (dt : R) (x : matrix) : matrix :=
  let x := setitem x 0 (item x 0 + item x 3 * dt * cos (item x 2)) in
  let x := setitem x 1 (item x 1 + item x 3 * dt * sin (item x 2)) in
  let x := setitem x 2 (item x 2) in
  let x := setitem x 3 (item x 3) in
  let x := setitem x 4 (1 / 10000000) in
  x.

(** The [else] assignments, in program order on the same [x].  They divide
    by [x[4]]: this describes them for a non-zero [x[4]]; with [x[4] = 0]
    numpy yields nan (see [zero_divisor] below). *)
Definition turning (dt : R) (x : matrix) : matrix :=
  let x := setitem x 0
     (item x 0 + (item x 3 / item x 4)
                 * (sin (item x 4 * dt + item x 2) - sin (item x 2))) in
  let x := setitem x 1
     (item x 1 + (item x 3 / item x 4)
                 * (- cos (item x 4 * dt + item x 2) + cos (item x 2))) in
  let x := setitem x 2
     (mod_ (item x 2 + item x 4 * dt + PI) (2 * PI) - PI) in
  let x := setitem x 3 (item x 3) in
  let x := setitem x 4 (item x 4) in
  x.

(** [if np.abs(yawrate[filterstep])<0.0001: ... else: ...] *)
Definition project_state (yr dt : R) (x : matrix) : matrix :=
  if Rlt_dec (Rabs yr) (1 / 10000) then straight dt x else turning dt x.

(** [a13] .. [a25] and [JA], computed from the [x] that is current when the
    statements run.  They divide by [x[4]] and describe the code for a
    non-zero [x[4]]; with [x[4] = 0] numpy yields inf and nan (see
    [zero_divisor] below). *)
Definition a13 (dt : R) (x : matrix) : R :=
  (item x 3 / item x 4) * (cos (item x 4 * dt + item x 2) - cos (item x 2)).
Definition a14 (dt : R) (x : matrix) : R :=
  (1 / item x 4) * (sin (item x 4 * dt + item x 2) - sin (item x 2)).
Definition a15 (dt : R) (x : matrix) : R :=
  (dt * item x 3 / item x 4) * cos (item x 4 * dt + item x 2)
  - (item x 3 / item x 4 ^ 2)
    * (sin (item x 4 * dt + item x 2) - sin (item x 2)).
Definition a23 (dt : R) (x : matrix) : R :=
  (item x 3 / item x 4) * (sin (item x 4 * dt + item x 2) - sin (item x 2)).
Definition a24 (dt : R) (x : matrix) : R :=
  (1 / item x 4) * (- cos (item x 4 * dt + item x 2) + cos (item x 2)).
Definition a25 (dt : R) (x : matrix) : R :=
  (dt * item x 3 / item x 4) * sin (item x 4 * dt + item x 2)
  - (item x 3 / item x 4 ^ 2)
    * (- cos (item x 4 * dt + item x 2) + cos (item x 2)).

Definition JA (dt : R) (x : matrix) : matrix :=
  [[1; 0; a13 dt x; a14 dt x; a15 dt x];
   [0; 1; a23 dt x; a24 dt x; a25 dt x];
   [0; 0; 1; 0; dt];
   [0; 0; 0; 1; 0];
   [0; 0; 0; 0; 1]].

(** [P = JA*P*JA.T + Q] *)
Definition project_cov (J P Q : matrix) : matrix :=
  add (mul (mul J P) (T J)) Q.

(** [hx = np.matrix([[float(x[0])], [float(x[1])]])] *)
Definition hx (x : matrix) : matrix := [[item x 0]; [item x 1]].

(** [if GPS[filterstep]: JH = ... else: JH = ...] *)
Definition JH (gps : bool) : matrix :=
  if gps then [[1; 0; 0; 0; 0];
               [0; 1; 0; 0; 0]]
  else [[0; 0; 0; 0; 0];
        [0; 0; 0; 0; 0]].

(** [S = JH*P*JH.T + R] *)
Definition innovation_cov (H P R : matrix) : matrix :=
  add (mul (mul H P) (T H)) R.

(** [K = (P*JH.T) * np.linalg.inv(S)], given the inverse. *)
Definition gain (P H Sinv : matrix) : matrix := mul (mul P (T H)) Sinv.

(** [P = (I - (K*JH))*P] *)
Definition correct_cov (K H P : matrix) : matrix :=
  mul (sub I_ (mul K H)) P.

(** [Z = measurements[:,filterstep].reshape(JH.shape[0],1)]: the column of
    the measurement array at this index, read whatever [GPS[filterstep]]
    is. *)
Definition Z_of (s : Sample) : matrix := [[mx s]; [my s]].

(** [y = Z - (hx)] *)
Definition residual (Z h : matrix) : matrix := sub Z h.

(** The names that are bound when one pass of the body has run. *)
Record Locals : Type := mkLocals {
  l_x : matrix;
  l_P : matrix;
  l_JA : matrix;
  l_JH : matrix;
  l_S : matrix;
  l_K : matrix;
  l_Z : matrix;
  l_y : matrix
}.

(** "Time Update (Prediction)": the new [x], [JA] and the new [P].  [JA] is
    computed after the assignments to [x]. *)
Definition time_update (c : Config) (s : Sample) (x P : matrix)
  : matrix * matrix * matrix :=
  let x := project_state (yawrate s) (c_dt c) x in
  let J := JA (c_dt c) x in
  let P := project_cov J P (c_Q c) in
  (x, J, P).

(** "Measurement Update (Correction)".  [None] is the exception of
    [np.linalg.inv]. *)
Definition measurement_update (c : Config) (s : Sample) (J x P : matrix)
  : option Locals :=
  let h := hx x in
  let H := JH (GPS s) in
  let S := innovation_cov H P (c_R c) in
  match inv S with
  | None => None
  | Some Sinv =>
      let K := gain P H Sinv in
      let Z := Z_of s in
      let y := residual Z h in
      let x := add x (mul K y) in
      let P := correct_cov K H P in
      Some (mkLocals x P J H S K Z y)
  end.

(** The body of the loop for one index. *)
Definition filterstep (c : Config) (s : Sample) (x P : matrix)
  : option Locals :=
  let '(x, J, P) := time_update c s x P in
  measurement_update c s J x P.

(** [for filterstep in range(m)]: the samples in order, threading [x] and
    [P]; the first exception ends the run. *)
Fixpoint run (c : Config) (samples : list Sample) (x P : matrix)
  : option (matrix * matrix) :=
  match samples with
  | [] => Some (x, P)
  | s :: rest =>
      match filterstep c s x P with
      | None => None
      | Some l => run c rest (l_x l) (l_P l)
      end
  end.

(** ** The zero divisor *)

(** The [else] branch divides by [x[4]], and so do [a13] .. [a25] after it;
    the first branch has set [x[4]] to 1e-7 by then.  The test of the
    branch reads [yawrate[filterstep]], not [x[4]], so [x[4]] can be 0 when
    the [else] branch is entered.  numpy does not raise there: [x[3]/x[4]]
    is inf or nan, its product with [sin(x[2]) - sin(x[2]) = 0] is nan, and
    the [x], [JA], [P], [S] and [K] of that pass hold nan, as do [x] and [P]
    for the rest of the loop. *)
Definition zero_divisor (s : Sample) (x : matrix) : bool :=
  if Rlt_dec (Rabs (yawrate s)) (1 / 10000) then false
  else if Req_dec_T (item x 4) 0 then true else false.

(** How a pass or the loop ends: with the exception of [np.linalg.inv],
    with nan in [x] and [P], or with real values. *)
Inductive outcome (A : Type) : Type :=
| Raised : outcome A
| NotANumber : outcome A
| Done : A -> outcome A.

Arguments Raised {A}.
Arguments NotANumber {A}.
Arguments Done {A} _.

(** One pass of the loop body, with the pass that divides by zero. *)
Definition checked_filterstep (c : Config) (s : Sample) (x P : matrix)
  : outcome Locals :=
  if zero_divisor s x then NotANumber
  else match filterstep c s x P with
       | None => Raised
       | Some l => Done l
       end.

(** The loop, with the passes that divide by zero. *)
Fixpoint checked_run (c : Config) (samples : list Sample) (x P : matrix)
  : outcome (matrix * matrix) :=
  match samples with
  | [] => Done (x, P)
  | s :: rest =>
      match checked_filterstep c s x P with
      | Raised => Raised
      | NotANumber => NotANumber
      | Done l => checked_run c rest (l_x l) (l_P l)
      end
  end.

(** ** Vocabulary of the specification *)

(** The singularity threshold, [0.0001] in the source. *)
Definition eps : R := 1 / 10000.

(** [wrap(a) = ((a+pi) mod 2pi) - pi] *)
Definition wrap (a : R) : R := mod_ (a + PI) (2 * PI) - PI.

(** The turning-regime equations of the specification. *)
Definition spec_turning (dt x y psi v dpsi : R) : matrix :=
  [[x + (v / dpsi) * (sin (dpsi * dt + psi) - sin psi)];
   [y + (v / dpsi) * (- cos (dpsi * dt + psi) + cos psi)];
   [wrap (psi + dpsi * dt)];
   [v];
   [dpsi]].

(** The straight-regime equations of the specification. *)
Definition spec_straight (dt x y psi v : R) : matrix :=
  [[x + v * dt * cos psi];
   [y + v * dt * sin psi];
   [psi];
   [v];
   [1 / 10000000]].

(** The Jacobian of the specification, with the listed partials taken at
    heading [psi], speed [v] and yaw rate [dpsi]. *)
Definition spec_JA (dt psi v dpsi : R) : matrix :=
  [[1; 0; (v / dpsi) * (cos (dpsi * dt + psi) - cos psi);
          (1 / dpsi) * (sin (dpsi * dt + psi) - sin psi);
          (dt * v / dpsi) * cos (dpsi * dt + psi)
          - (v / dpsi ^ 2) * (sin (dpsi * dt + psi) - sin psi)];
   [0; 1; (v / dpsi) * (sin (dpsi * dt + psi) - sin psi);
          (1 / dpsi) * (- cos (dpsi * dt + psi) + cos psi);
          (dt * v / dpsi) * sin (dpsi * dt + psi)
          - (v / dpsi ^ 2) * (- cos (dpsi * dt + psi) + cos psi)];
   [0; 0; 1; 0; dt];
   [0; 0; 0; 1; 0];
   [0; 0; 0; 0; 1]].

Definition zeros (m n : nat) : matrix := repeat (repeat 0 n) m.

Definition symmetric (A : matrix) : Prop := T A = A.

(** [v.T * A * v] for a vector [v]. *)
Definition quad (A : matrix) (v : list R) : R :=
  dot v (map (fun r => dot r v) A).

(** Positive-semidefinite: no quadratic form is negative. *)
Definition psd (A : matrix) : Prop :=
  forall v, length v = length A -> 0 <= quad A v.

Definition diag_nonneg (A : matrix) : Prop :=
  forall i, (i < length A)%nat -> 0 <= at_ A i i.

(** Positive-definite: every quadratic form of a non-zero vector is
    positive. *)
Definition pd (A : matrix) : Prop :=
  forall v, length v = length A -> v <> repeat 0 (length A) -> 0 < quad A v.

(** A symmetric 5x5 matrix by its upper triangle. *)
Definition sym5 (p00 p01 p02 p03 p04 p11 p12 p13 p14 p22 p23 p24
                 p33 p34 p44 : R) : matrix :=
  [[p00; p01; p02; p03; p04];
   [p01; p11; p12; p13; p14];
   [p02; p12; p22; p23; p24];
   [p03; p13; p23; p33; p34];
   [p04; p14; p24; p34; p44]].

(** A covariance: 5x5, symmetric, positive-semidefinite. *)
Definition covariance (A : matrix) : Prop :=
  shape 5 5 A /\ symmetric A /\ psd A.

(** ** The buffers for plotting and the loop that fills them *)

(** The lists of the "Preallocation for Plotting" cell that [savestates]
    and the loop append to; [x5] and [Pddy] are never appended to and are
    left out. *)
Module Plot.

Record buffers : Type := mk {
  x0 : list R; x1 : list R; x2 : list R; x3 : list R; x4 : list R;
  Zx : list R; Zy : list R;
  Px : list R; Py : list R; Pdx : list R; Pdy : list R; Pddx : list R;
  Kx : list R; Ky : list R; Kdx : list R; Kdy : list R; Kddx : list R;
  dstate : list nat
}.

Definition empty : buffers :=
  mk [] [] [] [] [] [] [] [] [] [] [] [] [] [] [] [] [] [].

(** The seventeen lists [savestates] appends to. *)
Definition saved (b : buffers) : list (list R) :=
  [x0 b; x1 b; x2 b; x3 b; x4 b; Zx b; Zy b;
   Px b; Py b; Pdx b; Pdy b; Pddx b;
   Kx b; Ky b; Kdx b; Kdy b; Kddx b].

(** The five lists of variances that [plotP] draws. *)
Definition variances (b : buffers) : list (list R) :=
  [Px b; Py b; Pdx b; Pdy b; Pddx b].

(** The five lists of gains that the gain plot draws. *)
Definition gains (b : buffers) : list (list R) :=
  [Kx b; Ky b; Kdx b; Kdy b; Kddx b].

End Plot.

(** [def savestates(x, Z, P, K)]: one [append] per list. *)
Definition savestates (x Z P K : matrix) (b : Plot.buffers) : Plot.buffers :=
  Plot.mk (Plot.x0 b ++ [item x 0]) (Plot.x1 b ++ [item x 1])
          (Plot.x2 b ++ [item x 2]) (Plot.x3 b ++ [item x 3])
          (Plot.x4 b ++ [item x 4])
          (Plot.Zx b ++ [item Z 0]) (Plot.Zy b ++ [item Z 1])
          (Plot.Px b ++ [at_ P 0 0]) (Plot.Py b ++ [at_ P 1 1])
          (Plot.Pdx b ++ [at_ P 2 2]) (Plot.Pdy b ++ [at_ P 3 3])
          (Plot.Pddx b ++ [at_ P 4 4])
          (Plot.Kx b ++ [at_ K 0 0]) (Plot.Ky b ++ [at_ K 1 0])
          (Plot.Kdx b ++ [at_ K 2 0]) (Plot.Kdy b ++ [at_ K 3 0])
          (Plot.Kddx b ++ [at_ K 4 0])
          (Plot.dstate b).

(** [dstate.append(0)] in the straight branch, [dstate.append(1)] in the
    other. *)
Definition dstate_entry (yr : R) : nat :=
  if Rlt_dec (Rabs yr) (1 / 10000) then 0%nat else 1%nat.

Definition append_dstate (yr : R) (b : Plot.buffers) : Plot.buffers :=
  Plot.mk (Plot.x0 b) (Plot.x1 b) (Plot.x2 b) (Plot.x3 b) (Plot.x4 b)
          (Plot.Zx b) (Plot.Zy b)
          (Plot.Px b) (Plot.Py b) (Plot.Pdx b) (Plot.Pdy b) (Plot.Pddx b)
          (Plot.Kx b) (Plot.Ky b) (Plot.Kdx b) (Plot.Kdy b) (Plot.Kddx b)
          (Plot.dstate b ++ [dstate_entry yr]).

(** One pass of the loop body with its appends: [dstate] is appended to in
    the time update, before [np.linalg.inv] can raise; [savestates] is the
    last statement. *)
Definition filterstep_log (c : Config) (s : Sample) (x P : matrix)
  (b : Plot.buffers) : Plot.buffers * option Locals :=
  let b := append_dstate (yawrate s) b in
  match filterstep c s x P with
  | None => (b, None)
  | Some l => (savestates (l_x l) (l_Z l) (l_P l) (l_K l) b, Some l)
  end.

(** The loop with the buffers.  When a pass raises, the buffers stay as
    that pass left them. *)
Fixpoint run_log (c : Config) (samples : list Sample) (x P : matrix)
  (b : Plot.buffers) : Plot.buffers * option (matrix * matrix) :=
  match samples with
  | [] => (b, Some (x, P))
  | s :: rest =>
      match filterstep_log c s x P b with
      | (b', None) => (b', None)
      | (b', Some l) => run_log c rest (l_x l) (l_P l) b'
      end
  end.

(** The state moved by [(a, b)] in the plane, and the sample whose
    measurement column is moved likewise. *)
Definition translate (a b : R) (x : matrix) : matrix :=
  setitem (setitem x 0 (item x 0 + a)) 1 (item x 1 + b).

Definition translate_sample (a b : R) (s : Sample) : Sample :=
  mkSample (yawrate s) (GPS s) (mx s + a) (my s + b).

(** The time updates alone, one per sample. *)
Definition dead_reckoning (c : Config) (samples : list Sample) (x : matrix)
  : matrix :=
  fold_left (fun x s => project_state (yawrate s) (c_dt c) x) samples x.

Definition nonneg_lists (ls : list (list R)) : Prop :=
  Forall (Forall (fun v => 0 <= v)) ls.

(** ** From the logged columns to the loop's inputs *)

(** The columns that [np.loadtxt] unpacks are one-dimensional arrays of the
    same length (for a file with at least two rows of data); they are
    lists here. *)

(** [course =(-course+90.0)] *)
Definition course_offset (course : list R) : list R :=
  map (fun a => - a + 90) course.

Definition RadiusEarth : R := 6378388.

(** [arc= 2.0*np.pi*(RadiusEarth+altitude)/360.0] *)
Definition arc_of (altitude : list R) : list R :=
  map (fun h => 2 * PI * (RadiusEarth + h) / 360) altitude.

(** [np.diff] *)
Fixpoint np_diff (l : list R) : list R :=
  match l with
  | a :: (b :: _) as t => (b - a) :: np_diff t
  | _ => []
  end.

(** [dx = arc * np.cos(latitude*np.pi/180.0) *
         np.hstack((0.0, np.diff(longitude)))] *)
Definition dx_of (latitude longitude altitude : list R) : list R :=
  zip Rmult
      (zip Rmult (arc_of altitude)
           (map (fun la => cos (la * PI / 180)) latitude))
      (0 :: np_diff longitude).

(** [dy = arc * np.hstack((0.0, np.diff(latitude)))] *)
Definition dy_of (latitude altitude : list R) : list R :=
  zip Rmult (arc_of altitude) (0 :: np_diff latitude).

Fixpoint cumsum_from (acc : R) (l : list R) : list R :=
  match l with
  | [] => []
  | a :: t => (acc + a) :: cumsum_from (acc + a) t
  end.

(** [np.cumsum] *)
Definition cumsum (l : list R) : list R :=
  match l with
  | [] => []
  | a :: t => a :: cumsum_from a t
  end.

(** [ds = np.sqrt(dx**2+dy**2)] *)
Definition ds_of (dx dy : list R) : list R :=
  map sqrt (zip Rplus (map (fun a => a ^ 2) dx) (map (fun a => a ^ 2) dy)).

(** [GPS=(ds!=0.0).astype('bool')] *)
Definition GPS_of (ds : list R) : list bool :=
  map (fun d => if Req_dec_T d 0 then false else true) ds.

(** [x = np.matrix([[mx[0], my[0], course[0]/180.0*np.pi,
                     speed[0]/3.6+0.001, yawrate[0]/180.0*np.pi]]).T];
    [None] is the [IndexError] of an empty column. *)
Definition initial_state (mx my course speed yawrate : list R)
  : option matrix :=
  match mx, my, course, speed, yawrate with
  | a :: _, b :: _, c :: _, v :: _, w :: _ =>
      Some [[a]; [b]; [c / 180 * PI]; [v / (36 / 10) + 1 / 1000];
            [w / 180 * PI]]
  | _, _, _, _, _ => None
  end.

(** What the loop reads at each index of [range(m)]: [yawrate[filterstep]],
    [GPS[filterstep]] and the column [filterstep] of
    [measurements = np.vstack((mx, my))]. *)
Fixpoint samples_of (yawrate : list R) (gps : list bool) (mx my : list R)
  : list Sample :=
  match yawrate, gps, mx, my with
  | w :: yawrate', g :: gps', a :: mx', b :: my' =>
      mkSample w g a b :: samples_of yawrate' gps' mx' my'
  | _, _, _, _ => []
  end.

(** The cells from the course offset to the end of the loop, on the columns
    of the file.  The outer [None] is the [IndexError] of the initial
    state. *)
Definition notebook_run
  (latitude longitude altitude course speed yawrate : list R)
  : option (Plot.buffers * option (matrix * matrix)) :=
  let course := course_offset course in
  let dx := dx_of latitude longitude altitude in
  let dy := dy_of latitude altitude in
  let mx := cumsum dx in
  let my := cumsum dy in
  let gps := GPS_of (ds_of dx dy) in
  match initial_state mx my course speed yawrate with
  | None => None
  | Some x =>
      Some (run_log notebook (samples_of yawrate gps mx my) x P0 Plot.empty)
  end.

(** [latekf = latitude[0] + np.divide(x1,arc)] *)
Definition latekf (latitude x1 arc : list R) : option (list R) :=
  match latitude with
  | [] => None
  | la0 :: _ => Some (map (fun q => la0 + q) (zip Rdiv x1 arc))
  end.

(** [lonekf = longitude[0] +
       np.divide(x0, np.multiply(arc, np.cos(latitude*np.pi/180.0)))] *)
Definition lonekf (latitude longitude x0 arc : list R) : option (list R) :=
  match longitude with
  | [] => None
  | lo0 :: _ =>
      Some (map (fun q => lo0 + q)
                (zip Rdiv x0
                     (zip Rmult arc
                          (map (fun la => cos (la * PI / 180)) latitude))))
  end.

(** ** Shapes *)

Ltac list_of_length l :=
  match goal with
  | H : length l = O |- _ =>
      destruct l; [clear H | discriminate H]
  | H : length l = S _ |- _ =>
      let a := fresh "a" in
      destruct l as [|a l]; [discriminate H|];
      simpl in H; apply eq_add_S in H; list_of_length l
  end.

Ltac forall_rows :=
  repeat match goal with
         | H : Forall _ (_ :: _) |- _ => inversion H; clear H; subst
         | H : Forall _ [] |- _ => clear H
         end.

(** Turns [H : shape m n A], for literal [m] and [n], into the literal
    matrix of its entries. *)
Ltac shape_inv H :=
  match type of H with
  | shape _ _ ?A =>
      let Hl := fresh "Hl" in
      let Hr := fresh "Hr" in
      destruct H as [Hl Hr];
      list_of_length A; forall_rows;
      repeat match goal with
             | H' : length ?r = _ |- _ => list_of_length r
             end
  end.

Ltac mat_red :=
  cbv [mul T col ncols dot map seq hd length nth add sub zip2 zip
       diag eye repeat Nat.eqb item at_ det2 zeros I_ numstates
       innovation_cov gain residual hx JH Z_of project_cov quad sym5
       adj_over_det correct_cov].

(** Splits an equation between literal lists or matrices into the equations
    between their entries. *)
Ltac rows_eq :=
  repeat match goal with
         | |- (_ :: _) = (_ :: _) => apply (f_equal2 cons)
         | |- @eq (list _) [] [] => reflexivity
         end.

Ltac mat_eq := mat_red; rows_eq; try ring.

Ltac shape_lit := split; [reflexivity | repeat constructor].

Lemma shape_lit_5_1 (a b c d e : R) : shape 5 1 [[a]; [b]; [c]; [d]; [e]].
Proof. split; [reflexivity | repeat constructor]. Qed.

Example T_example : T [[1; 2; 3]; [4; 5; 6]] = [[1; 4]; [2; 5]; [3; 6]].
Proof. reflexivity. Qed.

Example mul_example :
  mul [[1; 2]; [3; 4]] [[5; 6]; [7; 8]] = [[19; 22]; [43; 50]].
Proof. mat_eq. Qed.

Example eye_example :
  I_ = [[1; 0; 0; 0; 0];
        [0; 1; 0; 0; 0];
        [0; 0; 1; 0; 0];
        [0; 0; 0; 1; 0];
        [0; 0; 0; 0; 1]].
Proof. reflexivity. Qed.

Example inv_example :
  inv [[2; 0]; [0; 4]] = Some [[4 / (2 * 4 - 0 * 0); - 0 / (2 * 4 - 0 * 0)];
                               [- 0 / (2 * 4 - 0 * 0); 2 / (2 * 4 - 0 * 0)]].
Proof.
  unfold inv. destruct (Req_dec_T (det2 [[2; 0]; [0; 4]]) 0) as [E | _].
  - cbv [det2 at_ nth] in E. lra.
  - reflexivity.
Qed.

Example straight_example :
  straight 1 [[0]; [0]; [0]; [2]; [5]]
  = [[0 + 2 * 1 * cos 0]; [0 + 2 * 1 * sin 0]; [0]; [2]; [1 / 10000000]].
Proof. reflexivity. Qed.

(** ** The floored remainder and the heading wrap *)

Lemma mod_range (a b : R) : 0 < b -> 0 <= mod_ a b < b.
Proof.
  intros Hb. unfold mod_.
  destruct (base_Int_part (a / b)) as [Hlo Hhi].
  set (k := IZR (Int_part (a / b))) in *.
  assert (Ha : a = b * (a / b)) by (field; lra).
  set (r := a / b) in *.
  rewrite Ha. split; nra.
Qed.

Lemma Int_part_unit (r : R) : 0 <= r < 1 -> Int_part r = 0%Z.
Proof.
  intros Hr. symmetry. apply Int_part_spec. simpl. lra.
Qed.

Lemma wrap_range (a : R) : - PI <= wrap a < PI.
Proof.
  unfold wrap.
  assert (Hpi := PI_RGT_0).
  destruct (mod_range (a + PI) (2 * PI)) as [Hlo Hhi]; lra.
Qed.

Lemma wrap_PI : wrap PI = - PI.
Proof.
  unfold wrap, mod_.
  assert (Hpi := PI_RGT_0).
  replace ((PI + PI) / (2 * PI)) with 1 by (field; lra).
  replace (Int_part 1) with 1%Z
    by (apply Int_part_spec; simpl; lra).
  simpl. lra.
Qed.

Lemma wrap_small (a : R) : - PI <= a < PI -> wrap a = a.
Proof.
  intros Ha. unfold wrap, mod_.
  assert (Hpi := PI_RGT_0).
  rewrite Int_part_unit.
  - simpl. lra.
  - split.
    + apply Rmult_le_pos; [lra|].
      apply Rlt_le, Rinv_0_lt_compat. lra.
    + apply (Rmult_lt_reg_r (2 * PI)); [lra|].
      unfold Rdiv. rewrite Rmult_assoc, Rinv_l by lra. lra.
Qed.

(** ** The two regimes of the time update *)

Lemma straight_eval (dt x y psi v dpsi : R) :
  straight dt [[x]; [y]; [psi]; [v]; [dpsi]] = spec_straight dt x y psi v.
Proof. reflexivity. Qed.

Lemma turning_eval (dt x y psi v dpsi : R) :
  turning dt [[x]; [y]; [psi]; [v]; [dpsi]]
  = spec_turning dt x y psi v dpsi.
Proof. reflexivity. Qed.

Lemma project_state_lt (yr dt : R) (x : matrix) :
  Rabs yr < eps -> project_state yr dt x = straight dt x.
Proof.
  intros H. unfold project_state, eps in *.
  destruct (Rlt_dec (Rabs yr) (1 / 10000)); [reflexivity | contradiction].
Qed.

Lemma project_state_ge (yr dt : R) (x : matrix) :
  eps <= Rabs yr -> project_state yr dt x = turning dt x.
Proof.
  intros H. unfold project_state, eps in *.
  destruct (Rlt_dec (Rabs yr) (1 / 10000)); [lra | reflexivity].
Qed.

Lemma eps_le_1 : eps <= Rabs 1.
Proof. unfold eps. rewrite Rabs_R1. lra. Qed.

Lemma Rabs0_lt_eps : Rabs 0 < eps.
Proof. unfold eps. rewrite Rabs_R0. lra. Qed.

(** *** C1 *)

(** C1, as stated, fails: a state whose yaw rate is 1 rad/s (at least the
    threshold) is sent through the straight-driving assignments when the
    yaw-rate reading of the step is 0; its yaw rate becomes 1e-7 instead of
    staying 1. *)
Lemma C1_state_yawrate_does_not_select :
  eps <= Rabs 1 /\
  project_state 0 1 [[0]; [0]; [0]; [1]; [1]] <> spec_turning 1 0 0 0 1 1.
Proof.
  split; [exact eps_le_1|].
  rewrite (project_state_lt 0 1 _ Rabs0_lt_eps), straight_eval.
  intros H. apply (f_equal (fun m => item m 4)) in H.
  unfold spec_straight, spec_turning, item in H. simpl in H. lra.
Qed.

(** C1, amended: when the yaw-rate reading of the step,
    [yawrate[filterstep]], has magnitude at least 1e-4, the time update
    produces exactly the turning equations from the state it received,
    whatever the yaw-rate component of that state. *)
Theorem C1_turning_regime (yr dt x y psi v dpsi : R) :
  eps <= Rabs yr ->
  project_state yr dt [[x]; [y]; [psi]; [v]; [dpsi]]
  = [[x + (v / dpsi) * (sin (dpsi * dt + psi) - sin psi)];
     [y + (v / dpsi) * (- cos (dpsi * dt + psi) + cos psi)];
     [mod_ (psi + dpsi * dt + PI) (2 * PI) - PI];
     [v];
     [dpsi]].
Proof.
  intros Hyr. rewrite project_state_ge by assumption. reflexivity.
Qed.

Lemma C1_turning_regime_witness :
  eps <= Rabs 1 /\
  project_state 1 (1 / 50) [[0]; [0]; [0]; [10]; [1 / 10]]
  = [[0 + (10 / (1 / 10)) * (sin (1 / 10 * (1 / 50) + 0) - sin 0)];
     [0 + (10 / (1 / 10)) * (- cos (1 / 10 * (1 / 50) + 0) + cos 0)];
     [mod_ (0 + 1 / 10 * (1 / 50) + PI) (2 * PI) - PI];
     [10];
     [1 / 10]].
Proof.
  split; [exact eps_le_1|].
  apply (C1_turning_regime 1 (1 / 50) 0 0 0 10 (1 / 10)). exact eps_le_1.
Defined.

(** *** C4 *)

(** C4, as stated, fails: a state whose yaw rate is 1e-5 rad/s (below the
    threshold) goes through the turning assignments when the yaw-rate
    reading of the step is 1; its yaw rate stays 1e-5 and is not set to
    1e-7. *)
Lemma C4_small_state_yawrate_not_clamped :
  Rabs (1 / 100000) < eps /\
  project_state 1 1 [[0]; [0]; [0]; [1]; [1 / 100000]]
  <> spec_straight 1 0 0 0 1.
Proof.
  split.
  - unfold eps. rewrite Rabs_pos_eq; lra.
  - rewrite (project_state_ge 1 1 _ eps_le_1), turning_eval.
    intros H. apply (f_equal (fun m => item m 4)) in H.
    unfold spec_straight, spec_turning, item in H. simpl in H. lra.
Qed.

(** C4, amended: when the yaw-rate reading of the step has magnitude below
    1e-4, the time update advances the position linearly along the heading,
    leaves heading and speed unchanged and sets the yaw-rate component to
    exactly 1e-7, whatever its prior value. *)
Theorem C4_straight_regime (yr dt x y psi v dpsi : R) :
  Rabs yr < eps ->
  project_state yr dt [[x]; [y]; [psi]; [v]; [dpsi]]
  = [[x + v * dt * cos psi];
     [y + v * dt * sin psi];
     [psi];
     [v];
     [1 / 10000000]].
Proof.
  intros Hyr. rewrite project_state_lt by assumption. reflexivity.
Qed.

Lemma C4_straight_regime_witness :
  Rabs 0 < eps /\
  project_state 0 (1 / 50) [[3]; [4]; [1]; [10]; [2]]
  = [[3 + 10 * (1 / 50) * cos 1];
     [4 + 10 * (1 / 50) * sin 1];
     [1];
     [10];
     [1 / 10000000]].
Proof.
  split; [exact Rabs0_lt_eps|].
  apply (C4_straight_regime 0 (1 / 50) 3 4 1 10 2). exact Rabs0_lt_eps.
Defined.

(** *** C6 *)

(** C6, as stated, fails: with the same state and the same [dt], the time
    update gives two different states for two yaw-rate readings, and a state
    whose own yaw rate is above the threshold is driven straight. *)
Lemma C6_same_state_two_results :
  eps <= Rabs (item [[0]; [0]; [0]; [1]; [1]] 4) /\
  project_state 0 1 [[0]; [0]; [0]; [1]; [1]] = spec_straight 1 0 0 0 1 /\
  project_state 0 1 [[0]; [0]; [0]; [1]; [1]]
  <> project_state 1 1 [[0]; [0]; [0]; [1]; [1]].
Proof.
  split; [exact eps_le_1|].
  rewrite (project_state_lt 0 1 _ Rabs0_lt_eps).
  rewrite (project_state_ge 1 1 _ eps_le_1).
  rewrite straight_eval, turning_eval.
  split; [reflexivity|].
  intros H. apply (f_equal (fun m => item m 4)) in H.
  unfold spec_straight, spec_turning, item in H. simpl in H. lra.
Qed.

(** C6, amended: the regime is selected by comparing the magnitude of the
    step's yaw-rate reading [yawrate[filterstep]] against 1e-4; the time
    update is a function of the state, [dt] and that reading, and depends on
    the reading only through the comparison. *)
Theorem C6_regime_selected_by_reading (yr yr' dt x y psi v dpsi : R) :
  let X := [[x]; [y]; [psi]; [v]; [dpsi]] in
  ((Rabs yr < eps /\ project_state yr dt X = spec_straight dt x y psi v) \/
   (eps <= Rabs yr /\
    project_state yr dt X = spec_turning dt x y psi v dpsi)) /\
  ((Rabs yr < eps <-> Rabs yr' < eps) ->
   project_state yr dt X = project_state yr' dt X).
Proof.
  intros X. split.
  - destruct (Rlt_le_dec (Rabs yr) eps) as [Hlt | Hge].
    + left. split; [assumption|].
      rewrite project_state_lt by assumption. reflexivity.
    + right. split; [assumption|].
      rewrite project_state_ge by assumption. reflexivity.
  - intros Hiff.
    destruct (Rlt_le_dec (Rabs yr) eps) as [Hlt | Hge].
    + rewrite !project_state_lt; tauto.
    + assert (Hge' : eps <= Rabs yr').
      { destruct (Rlt_le_dec (Rabs yr') eps) as [Hlt' | ?]; [|assumption].
        apply Hiff in Hlt'. lra. }
      rewrite !project_state_ge; auto.
Qed.

Lemma C6_regime_selected_by_reading_witness :
  let X := [[0]; [0]; [0]; [1]; [1]] in
  ((Rabs 0 < eps /\ project_state 0 1 X = spec_straight 1 0 0 0 1) \/
   (eps <= Rabs 0 /\ project_state 0 1 X = spec_turning 1 0 0 0 1 1)) /\
  project_state 0 1 X = project_state (1 / 100000) 1 X.
Proof.
  intros X.
  destruct (C6_regime_selected_by_reading 0 (1 / 100000) 1 0 0 0 1 1)
    as [Hsel Hsame].
  split; [exact Hsel|].
  apply Hsame. unfold eps. rewrite Rabs_R0, Rabs_pos_eq; lra.
Defined.

(** *** C5 *)

(** C5, as stated, fails: heading 0, yaw rate pi and [dt] 1 give the
    pre-wrap heading pi, an odd multiple of pi, and the new heading is
    [-pi], which is outside (-pi, pi]. *)
Lemma C5_odd_multiple_wraps_to_minus_pi :
  wrap PI = - PI /\
  ~ (- PI < item (project_state 1 1 [[0]; [0]; [0]; [1]; [PI]]) 2 <= PI).
Proof.
  split; [exact wrap_PI|].
  rewrite (project_state_ge 1 1 _ eps_le_1), turning_eval.
  unfold spec_turning, item. simpl.
  replace (0 + PI * 1) with PI by ring.
  rewrite wrap_PI. lra.
Qed.

(** C5, amended: [wrap] maps every real into the half-open interval
    [-pi, pi), closed at [-pi]; a pre-wrap value of pi is sent to [-pi].
    After a time update in the turning regime the heading is
    [wrap (psi + dpsi*dt)] and so lies in [-pi, pi); in the straight regime
    no wrap is applied and the heading is the one the step received. *)
Theorem C5_heading_after_time_update (yr dt x y psi v dpsi a : R) :
  let psi' := item (project_state yr dt [[x]; [y]; [psi]; [v]; [dpsi]]) 2 in
  - PI <= wrap a < PI /\
  wrap PI = - PI /\
  ((Rabs yr < eps /\ psi' = psi) \/
   (eps <= Rabs yr /\ psi' = wrap (psi + dpsi * dt) /\ - PI <= psi' < PI)).
Proof.
  intros psi'. split; [apply wrap_range|]. split; [exact wrap_PI|].
  subst psi'.
  destruct (Rlt_le_dec (Rabs yr) eps) as [Hlt | Hge].
  - left. split; [assumption|].
    rewrite project_state_lt by assumption. reflexivity.
  - right. split; [assumption|].
    rewrite project_state_ge, turning_eval by assumption.
    unfold spec_turning, item. simpl.
    split; [reflexivity | apply wrap_range].
Qed.

(** *** C2 *)

Lemma time_update_eq (c : Config) (s : Sample) (x P : matrix) :
  time_update c s x P
  = (project_state (yawrate s) (c_dt c) x,
     JA (c_dt c) (project_state (yawrate s) (c_dt c) x),
     project_cov (JA (c_dt c) (project_state (yawrate s) (c_dt c) x))
                 P (c_Q c)).
Proof. reflexivity. Qed.

Lemma JA_eval (dt x y psi v dpsi : R) :
  JA dt [[x]; [y]; [psi]; [v]; [dpsi]] = spec_JA dt psi v dpsi.
Proof. reflexivity. Qed.

Lemma wrap_half_pi : wrap (0 + 25 * PI * dt) = PI / 2.
Proof.
  assert (Hpi := PI_RGT_0).
  replace (0 + 25 * PI * dt) with (PI / 2) by (unfold dt; field).
  apply wrap_small. lra.
Qed.

(** C2, as stated, fails: with the notebook's [dt], heading 0, speed 1 and
    yaw rate 25*pi (so that [dpsi*dt] is pi/2), the entry [a14] of the [JA]
    that propagates [P] is [-1/(25*pi)], the partial taken at the new heading
    pi/2, while the partial at the state the step received is
    [1/(25*pi)]. *)
Lemma C2_partials_use_updated_state :
  let s := mkSample 1 true 0 0 in
  let X := [[0]; [0]; [0]; [1]; [25 * PI]] in
  let '(_, J, _) := time_update notebook s X P0 in
  at_ J 0 3 = - (1 / (25 * PI)) /\
  at_ (spec_JA dt 0 1 (25 * PI)) 0 3 = 1 / (25 * PI) /\
  J <> spec_JA dt 0 1 (25 * PI).
Proof.
  intros s X. rewrite time_update_eq. subst s X.
  cbn [yawrate c_dt notebook].
  rewrite (project_state_ge 1 dt _ eps_le_1), turning_eval.
  unfold spec_turning. rewrite JA_eval, wrap_half_pi.
  assert (Hpi := PI_RGT_0).
  assert (E1 : at_ (spec_JA dt (PI / 2) 1 (25 * PI)) 0 3
               = - (1 / (25 * PI))).
  { unfold spec_JA, at_, dt. simpl.
    replace (25 * PI * (1 / 50) + PI / 2) with PI by field.
    rewrite sin_PI, sin_PI2. field. lra. }
  assert (E2 : at_ (spec_JA dt 0 1 (25 * PI)) 0 3 = 1 / (25 * PI)).
  { unfold spec_JA, at_, dt. simpl.
    replace (25 * PI * (1 / 50) + 0) with (PI / 2) by field.
    rewrite sin_0, sin_PI2. field. lra. }
  split; [exact E1|]. split; [exact E2|].
  intros H. rewrite H, E2 in E1.
  assert (0 < 1 / (25 * PI)).
  { apply Rdiv_lt_0_compat; lra. }
  lra.
Qed.

(** C2, amended: [JA] has the stated layout and the listed partials, and
    they are evaluated at the state as it is after the motion equations
    have overwritten it: in the straight regime at the received heading and
    speed with the yaw rate 1e-7, in the turning regime at the wrapped new
    heading with the received speed and yaw rate.  The same (turning-form)
    partials are used in both regimes, and this [JA] propagates [P]. *)
Theorem C2_jacobian_at_updated_state
  (c : Config) (s : Sample) (x y psi v dpsi : R) (P : matrix) :
  let '(X', J, P') := time_update c s [[x]; [y]; [psi]; [v]; [dpsi]] P in
  J = [[1; 0; a13 (c_dt c) X'; a14 (c_dt c) X'; a15 (c_dt c) X'];
       [0; 1; a23 (c_dt c) X'; a24 (c_dt c) X'; a25 (c_dt c) X'];
       [0; 0; 1; 0; c_dt c];
       [0; 0; 0; 1; 0];
       [0; 0; 0; 0; 1]] /\
  P' = add (mul (mul J P) (T J)) (c_Q c) /\
  ((Rabs (yawrate s) < eps /\
    J = spec_JA (c_dt c) psi v (1 / 10000000)) \/
   (eps <= Rabs (yawrate s) /\
    J = spec_JA (c_dt c) (wrap (psi + dpsi * c_dt c)) v dpsi)).
Proof.
  rewrite time_update_eq.
  split; [reflexivity|]. split; [reflexivity|].
  destruct (Rlt_le_dec (Rabs (yawrate s)) eps) as [Hlt | Hge].
  - left. split; [assumption|].
    rewrite project_state_lt by assumption. reflexivity.
  - right. split; [assumption|].
    rewrite project_state_ge by assumption. reflexivity.
Qed.

(** ** The measurement update without a position fix *)

Lemma S_no_fix (P R : matrix) :
  shape 5 5 P -> shape 2 2 R -> innovation_cov (JH false) P R = R.
Proof. intros HP HR. shape_inv HP. shape_inv HR. mat_eq. Qed.

Lemma gain_no_fix (P Si : matrix) :
  shape 5 5 P -> shape 2 2 Si -> gain P (JH false) Si = zeros 5 2.
Proof. intros HP HS. shape_inv HP. shape_inv HS. mat_eq. Qed.

Lemma add_zero_gain (x y : matrix) :
  shape 5 1 x -> shape 2 1 y -> add x (mul (zeros 5 2) y) = x.
Proof. intros Hx Hy. shape_inv Hx. shape_inv Hy. mat_eq. Qed.

Lemma I_sub_zero_gain : sub I_ (mul (zeros 5 2) (JH false)) = I_.
Proof. mat_eq. Qed.

Lemma correct_cov_zero_gain (P : matrix) :
  shape 5 5 P -> correct_cov (zeros 5 2) (JH false) P = P.
Proof. intros HP. shape_inv HP. mat_eq. Qed.

Lemma shape_adj_over_det (A : matrix) : shape 2 2 (adj_over_det A).
Proof. shape_lit. Qed.

Lemma shape_residual (s : Sample) (x : matrix) :
  shape 2 1 (residual (Z_of s) (hx x)).
Proof. shape_lit. Qed.

Lemma inv_some (A : matrix) : det2 A <> 0 -> inv A = Some (adj_over_det A).
Proof.
  intros Hd. unfold inv.
  destruct (Req_dec_T (det2 A) 0); [contradiction | reflexivity].
Qed.

Lemma inv_none (A : matrix) : det2 A = 0 -> inv A = None.
Proof.
  intros Hd. unfold inv.
  destruct (Req_dec_T (det2 A) 0); [reflexivity | contradiction].
Qed.

(** Everything one pass binds when [GPS[filterstep]] is false and [R] can
    be inverted. *)
Lemma measurement_update_no_fix (c : Config) (s : Sample) (J x P : matrix) :
  GPS s = false ->
  shape 5 1 x -> shape 5 5 P -> shape 2 2 (c_R c) -> det2 (c_R c) <> 0 ->
  measurement_update c s J x P
  = Some (mkLocals x P J (JH false) (c_R c) (zeros 5 2) (Z_of s)
                   (residual (Z_of s) (hx x))).
Proof.
  intros Hg Hx HP HR Hd. unfold measurement_update.
  rewrite Hg, (S_no_fix P (c_R c) HP HR), (inv_some _ Hd).
  rewrite (gain_no_fix P _ HP (shape_adj_over_det (c_R c))).
  rewrite (add_zero_gain x _ Hx (shape_residual s x)).
  rewrite (correct_cov_zero_gain P HP).
  reflexivity.
Qed.

Lemma shape_setitem (x : matrix) (i : nat) (v : R) :
  shape 5 1 x -> shape 5 1 (setitem x i v).
Proof.
  intros Hx. shape_inv Hx.
  do 5 (destruct i as [|i]; [shape_lit|]). shape_lit.
Qed.

Lemma shape_project_state (yr dt : R) (x : matrix) :
  shape 5 1 x -> shape 5 1 (project_state yr dt x).
Proof.
  intros Hx. unfold project_state, straight, turning.
  destruct (Rlt_dec (Rabs yr) (1 / 10000));
    repeat apply shape_setitem; assumption.
Qed.

Lemma shape_JA (dt : R) (x : matrix) : shape 5 5 (JA dt x).
Proof. shape_lit. Qed.

Lemma shape_project_cov (J P Q : matrix) :
  shape 5 5 J -> shape 5 5 P -> shape 5 5 Q ->
  shape 5 5 (project_cov J P Q).
Proof.
  intros HJ HP HQ. shape_inv HJ. shape_inv HP. shape_inv HQ. shape_lit.
Qed.

Lemma det2_R_ : det2 R_ <> 0.
Proof. unfold det2, R_, at_, varGPS. simpl. lra. Qed.

Lemma shape_R_ : shape 2 2 R_.
Proof. shape_lit. Qed.

Lemma shape_P0 : shape 5 5 P0.
Proof. shape_lit. Qed.

Lemma shape_Q : shape 5 5 Q.
Proof. shape_lit. Qed.

(** ** Passes that do not divide by zero *)

Lemma zero_divisor_false (s : Sample) (x : matrix) :
  Rabs (yawrate s) < eps \/ item x 4 <> 0 -> zero_divisor s x = false.
Proof.
  intros H. unfold zero_divisor, eps in *.
  destruct (Rlt_dec (Rabs (yawrate s)) (1 / 10000)); [reflexivity|].
  destruct (Req_dec_T (item x 4) 0); [|reflexivity].
  destruct H; contradiction.
Qed.

Lemma zero_divisor_true (s : Sample) (x : matrix) :
  eps <= Rabs (yawrate s) -> item x 4 = 0 -> zero_divisor s x = true.
Proof.
  intros Hyr Hx. unfold zero_divisor, eps in *.
  destruct (Rlt_dec (Rabs (yawrate s)) (1 / 10000)); [lra|].
  destruct (Req_dec_T (item x 4) 0); [reflexivity | contradiction].
Qed.

Lemma checked_filterstep_regular (c : Config) (s : Sample) (x P : matrix) :
  zero_divisor s x = false ->
  checked_filterstep c s x P
  = match filterstep c s x P with
    | None => Raised
    | Some l => Done l
    end.
Proof. intros H. unfold checked_filterstep. rewrite H. reflexivity. Qed.

Lemma checked_run_head (c : Config) (s : Sample) (rest : list Sample)
  (x P : matrix) :
  checked_run c (s :: rest) x P <> NotANumber -> zero_divisor s x = false.
Proof.
  intros H. destruct (zero_divisor s x) eqn:E; [|reflexivity].
  exfalso. apply H. cbn [checked_run]. unfold checked_filterstep.
  rewrite E. reflexivity.
Qed.

Lemma checked_run_step (c : Config) (s : Sample) (rest : list Sample)
  (x P : matrix) (l : Locals) :
  zero_divisor s x = false -> filterstep c s x P = Some l ->
  checked_run c (s :: rest) x P = checked_run c rest (l_x l) (l_P l).
Proof.
  intros Hz El. cbn [checked_run].
  rewrite (checked_filterstep_regular c s x P Hz), El. reflexivity.
Qed.

(** A loop that does not end with nan ends as [run] does. *)
Lemma checked_run_done (c : Config) (samples : list Sample) (x P : matrix)
  (r : matrix * matrix) :
  checked_run c samples x P <> NotANumber ->
  run c samples x P = Some r ->
  checked_run c samples x P = Done r.
Proof.
  revert x P. induction samples as [|s rest IH]; intros x P Hn Hr.
  - cbn in *. injection Hr as <-. reflexivity.
  - assert (Hz := checked_run_head c s rest x P Hn).
    cbn [run] in Hr. destruct (filterstep c s x P) as [l|] eqn:El;
      [|discriminate].
    rewrite (checked_run_step c s rest x P l Hz El) in Hn |- *.
    apply IH; assumption.
Qed.

(** Two passes, the first with a non-zero divisor and the second through
    the first branch, do not end with nan. *)
Lemma checked_run_two (c : Config) (s1 s2 : Sample) (x P : matrix) :
  zero_divisor s1 x = false -> Rabs (yawrate s2) < eps ->
  checked_run c [s1; s2] x P <> NotANumber.
Proof.
  intros H1 H2. cbn [checked_run].
  rewrite (checked_filterstep_regular c s1 x P H1).
  destruct (filterstep c s1 x P) as [l|]; [|discriminate].
  rewrite (checked_filterstep_regular c s2 _ _
             (zero_divisor_false s2 _ (or_introl H2))).
  destruct (filterstep c s2 (l_x l) (l_P l)); discriminate.
Qed.

(** *** C3 *)

(** C3, as stated, fails: with yaw rate 0 in the state and a yaw-rate
    reading of 1, a step without a position fix enters the [else] branch
    and divides by [x[4] = 0]; its [x] and [P] hold nan after the time
    update and at the end of the step, and they are not equal. *)
Lemma C3_zero_yaw_rate_gives_nan :
  GPS (mkSample 1 false 0 0) = false /\
  checked_filterstep notebook (mkSample 1 false 0 0)
                     [[0]; [0]; [0]; [1]; [0]] P0 = NotANumber /\
  forall l,
    checked_filterstep notebook (mkSample 1 false 0 0)
                       [[0]; [0]; [0]; [1]; [0]] P0 <> Done l.
Proof.
  assert (E : checked_filterstep notebook (mkSample 1 false 0 0)
                [[0]; [0]; [0]; [1]; [0]] P0 = NotANumber).
  { unfold checked_filterstep.
    rewrite (zero_divisor_true (mkSample 1 false 0 0)
               [[0]; [0]; [0]; [1]; [0]] eps_le_1 eq_refl).
    reflexivity. }
  split; [reflexivity|]. split; [exact E|].
  intros l. rewrite E. discriminate.
Qed.

(** C3, amended: on a step without a position fix whose time update does
    not divide by zero (the yaw-rate reading is below 1e-4, or the yaw rate
    in the state is not 0), with a 5x1 state, 5x5 [P] and [Q] and an
    invertible 2x2 [R], the step does not raise and the [x] and [P] it ends
    with are exactly the [x] and [P] of its time update. *)
Theorem C3_no_fix_keeps_prediction
  (c : Config) (s : Sample) (x P : matrix) :
  GPS s = false ->
  Rabs (yawrate s) < eps \/ item x 4 <> 0 ->
  shape 5 1 x -> shape 5 5 P -> shape 5 5 (c_Q c) ->
  shape 2 2 (c_R c) -> det2 (c_R c) <> 0 ->
  exists l,
    checked_filterstep c s x P = Done l /\
    filterstep c s x P = Some l /\
    l_x l = fst (fst (time_update c s x P)) /\
    l_P l = snd (time_update c s x P).
Proof.
  intros Hg Hz Hx HP HQ HR Hd.
  assert (E : exists l, filterstep c s x P = Some l /\
                l_x l = fst (fst (time_update c s x P)) /\
                l_P l = snd (time_update c s x P)).
  { unfold filterstep. rewrite time_update_eq.
    eexists. split.
    - apply measurement_update_no_fix; try assumption.
      + apply shape_project_state; assumption.
      + apply shape_project_cov; try assumption. apply shape_JA.
    - split; reflexivity. }
  destruct E as (l & El & Hlx & HlP).
  exists l. split; [|auto].
  rewrite (checked_filterstep_regular c s x P (zero_divisor_false s x Hz)).
  rewrite El. reflexivity.
Qed.

Lemma C3_no_fix_keeps_prediction_witness :
  exists l,
    checked_filterstep notebook (mkSample (1 / 2) false 3 4)
                       [[0]; [0]; [0]; [10]; [1 / 10]] P0 = Done l /\
    filterstep notebook (mkSample (1 / 2) false 3 4)
               [[0]; [0]; [0]; [10]; [1 / 10]] P0 = Some l /\
    l_x l = fst (fst (time_update notebook (mkSample (1 / 2) false 3 4)
                                  [[0]; [0]; [0]; [10]; [1 / 10]] P0)) /\
    l_P l = snd (time_update notebook (mkSample (1 / 2) false 3 4)
                             [[0]; [0]; [0]; [10]; [1 / 10]] P0).
Proof.
  apply (C3_no_fix_keeps_prediction notebook (mkSample (1 / 2) false 3 4)
           [[0]; [0]; [0]; [10]; [1 / 10]] P0).
  - reflexivity.
  - right. cbv [item nth]. lra.
  - apply shape_lit_5_1.
  - exact shape_P0.
  - exact shape_Q.
  - exact shape_R_.
  - exact det2_R_.
Defined.

(** *** C10 *)

(** C10: at a measurement update without a position fix, for every 5x1
    state [x] and 5x5 [P] and every invertible 2x2 [R], [JH] is the zero
    2x5 matrix, the inversion succeeds and the gain is exactly the zero 5x2
    matrix; adding [K*y] leaves [x] as it is for every residual [y], and
    [I - K*JH] is exactly the identity. *)
Theorem C10_zero_gain_without_fix
  (c : Config) (s : Sample) (J x P : matrix) :
  GPS s = false ->
  shape 5 1 x -> shape 5 5 P -> shape 2 2 (c_R c) -> det2 (c_R c) <> 0 ->
  exists l,
    measurement_update c s J x P = Some l /\
    l_JH l = zeros 2 5 /\
    inv (l_S l) <> None /\
    l_K l = zeros 5 2 /\
    (forall y, shape 2 1 y -> add x (mul (l_K l) y) = x) /\
    sub I_ (mul (l_K l) (l_JH l)) = I_.
Proof.
  intros Hg Hx HP HR Hd.
  eexists. split.
  - apply measurement_update_no_fix; assumption.
  - cbn [l_JH l_K l_S]. split; [reflexivity|]. split.
    + rewrite (inv_some _ Hd). discriminate.
    + split; [reflexivity|]. split.
      * intros y Hy. apply add_zero_gain; assumption.
      * exact I_sub_zero_gain.
Qed.

Lemma C10_zero_gain_without_fix_witness :
  exists l,
    measurement_update notebook (mkSample 0 false 3 4) I_
                       [[1]; [2]; [0]; [10]; [0]] P0 = Some l /\
    l_JH l = zeros 2 5 /\
    inv (l_S l) <> None /\
    l_K l = zeros 5 2 /\
    (forall y, shape 2 1 y ->
               add [[1]; [2]; [0]; [10]; [0]] (mul (l_K l) y)
               = [[1]; [2]; [0]; [10]; [0]]) /\
    sub I_ (mul (l_K l) (l_JH l)) = I_.
Proof.
  apply (C10_zero_gain_without_fix notebook (mkSample 0 false 3 4) I_
           [[1]; [2]; [0]; [10]; [0]] P0).
  - reflexivity.
  - apply shape_lit_5_1.
  - exact shape_P0.
  - exact shape_R_.
  - exact det2_R_.
Defined.

(** *** C7 *)

Lemma filterstep_no_fix (c : Config) (s : Sample) (x P : matrix) :
  GPS s = false ->
  shape 5 1 x -> shape 5 5 P -> shape 5 5 (c_Q c) ->
  shape 2 2 (c_R c) -> det2 (c_R c) <> 0 ->
  let xp := project_state (yawrate s) (c_dt c) x in
  let J := JA (c_dt c) xp in
  filterstep c s x P
  = Some (mkLocals xp (project_cov J P (c_Q c)) J (JH false) (c_R c)
                   (zeros 5 2) (Z_of s) (residual (Z_of s) (hx xp))).
Proof.
  intros Hg Hx HP HQ HR Hd xp J.
  unfold filterstep. rewrite time_update_eq.
  apply measurement_update_no_fix; try assumption.
  - apply shape_project_state; assumption.
  - apply shape_project_cov; try assumption. apply shape_JA.
Qed.

(** The measurement column and the residual of a pass that does not raise,
    whatever [GPS[filterstep]] is. *)
Lemma filterstep_residual (c : Config) (s : Sample) (x P : matrix) (l : Locals) :
  filterstep c s x P = Some l ->
  l_Z l = [[mx s]; [my s]] /\
  l_y l = [[mx s - item (project_state (yawrate s) (c_dt c) x) 0];
           [my s - item (project_state (yawrate s) (c_dt c) x) 1]].
Proof.
  unfold filterstep. rewrite time_update_eq. unfold measurement_update.
  destruct (inv _); [|discriminate].
  intros H. injection H as <-. split; reflexivity.
Qed.

(** C7, as stated, fails: a stationary state at position (1, 2), no fix at
    this step, and the measurement column (5, 7): the value [Z] is (5, 7),
    not [h(x)] = (1, 2), and the residual is (4, 5), not zero. *)
Lemma C7_residual_nonzero_without_fix :
  exists l,
    filterstep notebook (mkSample 0 false 5 7)
               [[1]; [2]; [0]; [0]; [0]] P0 = Some l /\
    l_Z l = [[5]; [7]] /\
    l_y l = [[4]; [5]] /\
    l_y l <> [[0]; [0]].
Proof.
  eexists. split.
  - apply filterstep_no_fix.
    + reflexivity.
    + apply shape_lit_5_1.
    + exact shape_P0.
    + exact shape_Q.
    + exact shape_R_.
    + exact det2_R_.
  - cbn [l_Z l_y yawrate notebook c_dt].
    rewrite (project_state_lt 0 dt _ Rabs0_lt_eps), straight_eval.
    assert (E : residual (Z_of (mkSample 0 false 5 7))
                         (hx (spec_straight dt 1 2 0 0))
                = [[4]; [5]]).
    { unfold spec_straight, Z_of, mx, my. mat_eq. }
    rewrite E. split; [reflexivity|]. split; [reflexivity|].
    intros H. injection H as H _. lra.
Qed.

(** C7, amended: on a step without a position fix (invertible [R],
    well-shaped state and matrices) the step does not raise; the value [Z]
    it uses is still the step's column of the measurement array, the
    residual is [Z - h(x)] for the predicted [x], and it is the zero vector
    only when that column equals the predicted position. *)
Theorem C7_residual_without_fix
  (c : Config) (s : Sample) (x P : matrix) :
  GPS s = false ->
  shape 5 1 x -> shape 5 5 P -> shape 5 5 (c_Q c) ->
  shape 2 2 (c_R c) -> det2 (c_R c) <> 0 ->
  let xp := project_state (yawrate s) (c_dt c) x in
  exists l,
    filterstep c s x P = Some l /\
    l_Z l = [[mx s]; [my s]] /\
    l_y l = [[mx s - item xp 0]; [my s - item xp 1]] /\
    (l_y l = [[0]; [0]] <-> mx s = item xp 0 /\ my s = item xp 1).
Proof.
  intros Hg Hx HP HQ HR Hd xp.
  eexists. split.
  - apply filterstep_no_fix; assumption.
  - cbn [l_Z l_y]. fold xp.
    split; [reflexivity|]. split; [reflexivity|].
    unfold residual, Z_of, hx, sub. cbn [zip2 zip]. split.
    + intros H. injection H as H0 H1. split; lra.
    + intros [H0 H1]. rewrite H0, H1. repeat f_equal; ring.
Qed.

Lemma C7_residual_without_fix_witness :
  let xp := project_state 0 dt [[1]; [2]; [0]; [0]; [0]] in
  exists l,
    filterstep notebook (mkSample 0 false 5 7)
               [[1]; [2]; [0]; [0]; [0]] P0 = Some l /\
    l_Z l = [[5]; [7]] /\
    l_y l = [[5 - item xp 0]; [7 - item xp 1]] /\
    (l_y l = [[0]; [0]] <-> 5 = item xp 0 /\ 7 = item xp 1).
Proof.
  apply (C7_residual_without_fix notebook (mkSample 0 false 5 7)
           [[1]; [2]; [0]; [0]; [0]] P0).
  - reflexivity.
  - apply shape_lit_5_1.
  - exact shape_P0.
  - exact shape_Q.
  - exact shape_R_.
  - exact det2_R_.
Defined.

(** ** Covariances *)

Lemma pd2_lit (a b c d : R) :
  symmetric [[a; b]; [c; d]] -> pd [[a; b]; [c; d]] ->
  c = b /\ 0 < a /\ 0 < d /\ 0 < a * d - b * b.
Proof.
  intros Hs Hp.
  assert (Hcb : c = b).
  { unfold symmetric in Hs. cbv [T col ncols map seq hd length nth] in Hs.
    injection Hs as. congruence. }
  subst c.
  assert (H1 := Hp [1; 0] eq_refl).
  assert (H2 := Hp [0; 1] eq_refl).
  assert (H3 := Hp [d; - b] eq_refl).
  cbv [quad dot map length repeat] in H1, H2, H3.
  assert (Ha : 0 < a).
  { enough (0 < 1 * (a * 1 + (b * 0 + 0)) + (0 * (b * 1 + (d * 0 + 0)) + 0))
      by lra.
    apply H1. intros E. injection E as E. lra. }
  assert (Hd : 0 < d).
  { enough (0 < 0 * (a * 0 + (b * 1 + 0)) + (1 * (b * 0 + (d * 1 + 0)) + 0))
      by lra.
    apply H2. intros E. injection E as E. lra. }
  repeat split; try assumption.
  enough (0 < d * (a * d + (b * - b + 0))
              + (- b * (b * d + (d * - b + 0)) + 0)) by nra.
  apply H3. intros E. injection E as E _. lra.
Qed.

Lemma pd2_entries (R : matrix) :
  shape 2 2 R -> symmetric R -> pd R ->
  exists a b d, R = [[a; b]; [b; d]] /\ 0 < a /\ 0 < d /\ 0 < a * d - b * b.
Proof.
  intros HR Hs Hp. shape_inv HR.
  match goal with
  | H : pd [[?a; ?b]; [?c; ?d]] |- _ =>
      destruct (pd2_lit a b c d Hs H) as (-> & Ha & Hd & Hdet);
      exists a, b, d
  end.
  auto.
Qed.

Lemma sym_lit_5
  (p00 p01 p02 p03 p04 p10 p11 p12 p13 p14 p20 p21 p22 p23 p24
   p30 p31 p32 p33 p34 p40 p41 p42 p43 p44 : R) :
  symmetric [[p00; p01; p02; p03; p04];
             [p10; p11; p12; p13; p14];
             [p20; p21; p22; p23; p24];
             [p30; p31; p32; p33; p34];
             [p40; p41; p42; p43; p44]] <->
  (p10 = p01 /\ p20 = p02 /\ p30 = p03 /\ p40 = p04 /\ p21 = p12 /\
   p31 = p13 /\ p41 = p14 /\ p32 = p23 /\ p42 = p24 /\ p43 = p34).
Proof.
  unfold symmetric. cbv [T col ncols map seq hd length nth]. split.
  - intros H. injection H as. repeat split; congruence.
  - intros (-> & -> & -> & -> & -> & -> & -> & -> & -> & ->). reflexivity.
Qed.

Lemma symmetric_inv (P : matrix) :
  shape 5 5 P -> symmetric P ->
  exists p00 p01 p02 p03 p04 p11 p12 p13 p14 p22 p23 p24 p33 p34 p44,
    P = sym5 p00 p01 p02 p03 p04 p11 p12 p13 p14 p22 p23 p24 p33 p34 p44.
Proof.
  intros HP Hs. shape_inv HP. apply sym_lit_5 in Hs.
  destruct Hs as (-> & -> & -> & -> & -> & -> & -> & -> & -> & ->).
  repeat eexists.
Qed.

Lemma symmetric_sym5
  (p00 p01 p02 p03 p04 p11 p12 p13 p14 p22 p23 p24 p33 p34 p44 : R) :
  symmetric (sym5 p00 p01 p02 p03 p04 p11 p12 p13 p14 p22 p23 p24
                  p33 p34 p44).
Proof. reflexivity. Qed.

(** Covariance projection keeps symmetry and positive-semidefiniteness. *)
Lemma quad_project_cov (J P Q : matrix) (v : list R) :
  shape 5 5 J -> shape 5 5 P -> shape 5 5 Q -> length v = 5%nat ->
  quad (project_cov J P Q) v
  = quad P (map (fun c => dot c v) (T J)) + quad Q v.
Proof.
  intros HJ HP HQ Hv. shape_inv HJ. shape_inv HP. shape_inv HQ.
  mat_red. ring.
Qed.

Lemma symmetric_project_cov (J P Q : matrix) :
  shape 5 5 J -> shape 5 5 P -> shape 5 5 Q ->
  symmetric P -> symmetric Q -> symmetric (project_cov J P Q).
Proof.
  intros HJ HP HQ HsP HsQ.
  destruct (symmetric_inv P HP HsP) as (? & ? & ? & ? & ? & ? & ? & ? & ? & ? &
      ? & ? & ? & ? & ? & ->).
  destruct (symmetric_inv Q HQ HsQ) as (? & ? & ? & ? & ? & ? & ? & ? & ? & ? &
      ? & ? & ? & ? & ? & ->).
  shape_inv HJ. unfold symmetric. mat_red. rows_eq; ring.
Qed.

Lemma covariance_project_cov (J P Q : matrix) :
  shape 5 5 J -> covariance P -> covariance Q ->
  covariance (project_cov J P Q).
Proof.
  intros HJ (HP & HsP & HpP) (HQ & HsQ & HpQ).
  split; [apply shape_project_cov; assumption|].
  split; [apply symmetric_project_cov; assumption|].
  intros v Hv.
  assert (Hv5 : length v = 5%nat).
  { rewrite Hv. apply (shape_project_cov J P Q HJ HP HQ). }
  rewrite quad_project_cov by assumption.
  assert (0 <= quad Q v).
  { apply HpQ. rewrite Hv5. symmetry. apply HQ. }
  assert (0 <= quad P (map (fun c => dot c v) (T J))).
  { apply HpP. destruct HP as [-> _]. shape_inv HJ. reflexivity. }
  lra.
Qed.

Lemma Rmult_nonneg_reg (d q : R) : 0 < d -> 0 <= d * q -> 0 <= q.
Proof. intros Hd Hq. nra. Qed.

Lemma Rmult_pos_reg (d q : R) : 0 < d -> 0 < d * q -> 0 < q.
Proof. intros Hd Hq. nra. Qed.

Section Correction.
Variables p00 p01 p02 p03 p04 p11 p12 p13 p14 p22 p23 p24 p33 p34 p44 : R.
Variables a b d : R.

Local Abbreviation P :=
  (sym5 p00 p01 p02 p03 p04 p11 p12 p13 p14 p22 p23 p24 p33 p34 p44).
Local Abbreviation Rm := ([[a; b]; [b; d]]).
Local Abbreviation S := (innovation_cov (JH true) P Rm).

Lemma S_fix : S = [[p00 + a; p01 + b]; [p01 + b; p11 + d]].
Proof. mat_red. rows_eq; ring. Qed.

Lemma det2_S_fix : det2 S = (p00 + a) * (p11 + d) - (p01 + b) * (p01 + b).
Proof. rewrite S_fix. reflexivity. Qed.

Hypothesis HpsdP : psd P.
Hypothesis Ha : 0 < a.
Hypothesis Hd : 0 < d.
Hypothesis Hdet : 0 < a * d - b * b.

Lemma quad_R_nonneg (s t : R) : 0 <= a * s * s + 2 * b * s * t + d * t * t.
Proof.
  assert (E : d * (a * s * s + 2 * b * s * t + d * t * t)
              = (b * s + d * t) * (b * s + d * t) + (a * d - b * b) * (s * s))
    by ring.
  apply (Rmult_nonneg_reg d); [assumption|]. rewrite E.
  apply Rplus_le_le_0_compat.
  - apply (Rle_0_sqr (b * s + d * t)).
  - apply Rmult_le_pos; [lra | apply (Rle_0_sqr s)].
Qed.

Lemma quad_R_pos (s t : R) :
  0 < s -> 0 < a * s * s + 2 * b * s * t + d * t * t.
Proof.
  intros Hs.
  assert (E : d * (a * s * s + 2 * b * s * t + d * t * t)
              = (b * s + d * t) * (b * s + d * t) + (a * d - b * b) * (s * s))
    by ring.
  apply (Rmult_pos_reg d); [assumption|]. rewrite E.
  apply Rplus_le_lt_0_compat.
  - apply (Rle_0_sqr (b * s + d * t)).
  - apply Rmult_lt_0_compat; [lra | apply Rmult_lt_0_compat; assumption].
Qed.

Lemma block_nonneg (s t : R) :
  0 <= p00 * s * s + 2 * p01 * s * t + p11 * t * t.
Proof.
  assert (H := HpsdP [s; t; 0; 0; 0] eq_refl).
  cbv [quad dot map sym5] in H. nra.
Qed.

Lemma det2_S_pos : 0 < det2 S.
Proof.
  rewrite det2_S_fix.
  assert (H11 := block_nonneg 0 1).
  assert (Hs : 0 < p11 + d) by lra.
  assert (HA := block_nonneg (p11 + d) (- (p01 + b))).
  assert (HR := quad_R_pos (p11 + d) (- (p01 + b)) Hs).
  apply (Rmult_pos_reg (p11 + d)); [assumption|].
  replace ((p11 + d) * ((p00 + a) * (p11 + d) - (p01 + b) * (p01 + b)))
    with ((p00 * (p11 + d) * (p11 + d)
           + 2 * p01 * (p11 + d) * - (p01 + b)
           + p11 * - (p01 + b) * - (p01 + b))
          + (a * (p11 + d) * (p11 + d)
             + 2 * b * (p11 + d) * - (p01 + b)
             + d * - (p01 + b) * - (p01 + b))) by ring.
  lra.
Qed.

Local Abbreviation K := (gain P (JH true) (adj_over_det S)).
Local Abbreviation P' := (correct_cov K (JH true) P).

Lemma shape_P' : shape 5 5 P'.
Proof. shape_lit. Qed.

Lemma symmetric_P' : symmetric P'.
Proof.
  assert (Hne : (p00 + a) * (p11 + d) - (p01 + b) * (p01 + b) <> 0).
  { rewrite <- det2_S_fix. apply Rgt_not_eq, det2_S_pos. }
  rewrite S_fix.
  unfold symmetric. mat_red. rows_eq; field; exact Hne.
Qed.

Lemma quad_P' (v0 v1 v2 v3 v4 : R) :
  let w0 := p00 * v0 + p01 * v1 + p02 * v2 + p03 * v3 + p04 * v4 in
  let w1 := p01 * v0 + p11 * v1 + p12 * v2 + p13 * v3 + p14 * v4 in
  let D := (p00 + a) * (p11 + d) - (p01 + b) * (p01 + b) in
  let t0 := ((p11 + d) * w0 - (p01 + b) * w1) / D in
  let t1 := ((p00 + a) * w1 - (p01 + b) * w0) / D in
  quad P' [v0; v1; v2; v3; v4]
  = quad P [v0 - t0; v1 - t1; v2; v3; v4]
    + (a * t0 * t0 + 2 * b * t0 * t1 + d * t1 * t1).
Proof.
  intros w0 w1 D t0 t1.
  assert (Hne : D <> 0).
  { subst D. rewrite <- det2_S_fix. apply Rgt_not_eq, det2_S_pos. }
  rewrite S_fix. subst t0 t1 w0 w1 D.
  mat_red. field. exact Hne.
Qed.

Lemma psd_P' : psd P'.
Proof.
  intros v Hv. change (length v = 5%nat) in Hv.
  list_of_length v. rewrite quad_P'.
  match goal with
  | |- 0 <= quad P ?u + (a * ?s * ?s + 2 * b * ?s * ?t + d * ?t * ?t) =>
      assert (H1 := HpsdP u eq_refl);
      assert (H2 := quad_R_nonneg s t)
  end.
  lra.
Qed.

End Correction.

(** ** One pass and the whole run keep a covariance *)

Lemma psd_diag_nonneg (P : matrix) :
  shape 5 5 P -> psd P -> diag_nonneg P.
Proof.
  intros HP Hp. shape_inv HP. intros i Hi. cbv [length] in Hi.
  assert (H0 := Hp [1; 0; 0; 0; 0] eq_refl).
  assert (H1 := Hp [0; 1; 0; 0; 0] eq_refl).
  assert (H2 := Hp [0; 0; 1; 0; 0] eq_refl).
  assert (H3 := Hp [0; 0; 0; 1; 0] eq_refl).
  assert (H4 := Hp [0; 0; 0; 0; 1] eq_refl).
  cbv [quad dot map] in H0, H1, H2, H3, H4.
  do 5 (destruct i as [|i]; [cbv [at_ nth]; lra|]). lia.
Qed.

Lemma psd_diag5 (d0 d1 d2 d3 d4 : R) :
  0 <= d0 -> 0 <= d1 -> 0 <= d2 -> 0 <= d3 -> 0 <= d4 ->
  covariance (diag [d0; d1; d2; d3; d4]).
Proof.
  intros H0 H1 H2 H3 H4. split; [shape_lit|]. split; [reflexivity|].
  intros v Hv. simpl in Hv. list_of_length v.
  replace (quad (diag [d0; d1; d2; d3; d4]) [a; a0; a1; a2; a3])
    with (d0 * (a * a) + d1 * (a0 * a0) + d2 * (a1 * a1)
          + d3 * (a2 * a2) + d4 * (a3 * a3))
    by (mat_red; ring).
  repeat apply Rplus_le_le_0_compat;
    (apply Rmult_le_pos; [assumption | apply Rle_0_sqr]).
Qed.

Lemma covariance_P0 : covariance P0.
Proof. apply psd_diag5; lra. Qed.

Lemma covariance_Q : covariance Q.
Proof. apply psd_diag5; apply pow2_ge_0. Qed.

Lemma symmetric_R_ : symmetric R_.
Proof. reflexivity. Qed.

Lemma pd_R_ : pd R_.
Proof.
  intros v Hv Hne. simpl in Hv, Hne. list_of_length v. unfold R_, varGPS. mat_red.
  destruct (Req_dec a 0) as [-> | Ha].
  - destruct (Req_dec a0 0) as [-> | Ha0]; [contradiction Hne; reflexivity|].
    assert (0 < a0 * a0) by (apply Rsqr_pos_lt; assumption). nra.
  - assert (0 < a * a) by (apply Rsqr_pos_lt; assumption).
    assert (0 <= a0 * a0) by apply Rle_0_sqr. nra.
Qed.

Lemma pd_det2_pos (R : matrix) :
  shape 2 2 R -> symmetric R -> pd R -> 0 < det2 R.
Proof.
  intros HR Hs Hp.
  destruct (pd2_entries R HR Hs Hp) as (a & b & d & -> & Ha & Hd & Hdet).
  cbv [det2 at_ nth]. lra.
Qed.

Lemma shape_add_gain (x K y : matrix) :
  shape 5 1 x -> shape 5 2 K -> shape 2 1 y -> shape 5 1 (add x (mul K y)).
Proof.
  intros Hx HK Hy. shape_inv Hx. shape_inv HK. shape_inv Hy. shape_lit.
Qed.

Lemma shape_gain (P Si : matrix) (gps : bool) :
  shape 5 5 P -> shape 2 2 Si -> shape 5 2 (gain P (JH gps) Si).
Proof.
  intros HP HS. shape_inv HP. shape_inv HS. destruct gps; shape_lit.
Qed.

(** The measurement update with a position fix, on a covariance [P] and a
    symmetric positive-definite [R]. *)
Lemma measurement_update_fix (c : Config) (s : Sample) (J x P : matrix) :
  GPS s = true ->
  shape 5 1 x -> covariance P ->
  shape 2 2 (c_R c) -> symmetric (c_R c) -> pd (c_R c) ->
  let S := innovation_cov (JH true) P (c_R c) in
  let K := gain P (JH true) (adj_over_det S) in
  let y := residual (Z_of s) (hx x) in
  0 < det2 S /\
  measurement_update c s J x P
  = Some (mkLocals (add x (mul K y)) (correct_cov K (JH true) P)
                   J (JH true) S K (Z_of s) y) /\
  shape 5 1 (add x (mul K y)) /\
  covariance (correct_cov K (JH true) P).
Proof.
  intros Hg Hx (HP & HsP & HpP) HR HsR HpR S K y.
  destruct (pd2_entries _ HR HsR HpR) as (a & b & d & ER & Ha & Hd & Hdet).
  destruct (symmetric_inv P HP HsP)
    as (p00 & p01 & p02 & p03 & p04 & p11 & p12 & p13 & p14 & p22 &
        p23 & p24 & p33 & p34 & p44 & EP).
  assert (HdS : 0 < det2 S).
  { subst S. rewrite ER, EP. apply det2_S_pos; try assumption.
    rewrite <- EP. assumption. }
  split; [assumption|]. split.
  - unfold measurement_update. rewrite Hg. fold S.
    rewrite (inv_some S) by (apply Rgt_not_eq; assumption).
    reflexivity.
  - split.
    + apply shape_add_gain; try assumption.
      * apply shape_gain; [assumption | apply shape_adj_over_det].
      * apply shape_residual.
    + subst K S. rewrite ER, EP. rewrite EP in HpP.
      split; [apply shape_P'|].
      split; [apply symmetric_P' | apply psd_P']; assumption.
Qed.

Lemma filterstep_covariance (c : Config) (s : Sample) (x P : matrix) :
  shape 5 1 x -> covariance P -> covariance (c_Q c) ->
  shape 2 2 (c_R c) -> symmetric (c_R c) -> pd (c_R c) ->
  exists l,
    filterstep c s x P = Some l /\
    shape 5 1 (l_x l) /\ covariance (l_P l) /\
    covariance (snd (time_update c s x P)) /\
    0 < det2 (l_S l).
Proof.
  intros Hx HP HQ HR HsR HpR.
  assert (Hxp := shape_project_state (yawrate s) (c_dt c) x Hx).
  assert (HPp : covariance (project_cov
                  (JA (c_dt c) (project_state (yawrate s) (c_dt c) x))
                  P (c_Q c))).
  { apply covariance_project_cov; try assumption. apply shape_JA. }
  destruct (GPS s) eqn:Hg.
  - destruct (measurement_update_fix c s
                (JA (c_dt c) (project_state (yawrate s) (c_dt c) x))
                _ _ Hg Hxp HPp HR HsR HpR) as (Hd & E & Hsx & Hc).
    eexists. split.
    + unfold filterstep. rewrite time_update_eq. exact E.
    + cbn [l_x l_P l_S]. rewrite time_update_eq. cbn [snd]. auto.
  - assert (HdR := pd_det2_pos _ HR HsR HpR).
    eexists. split.
    + apply filterstep_no_fix; try assumption.
      * apply HP.
      * apply HQ.
      * apply Rgt_not_eq. assumption.
    + cbn [l_x l_P l_S]. rewrite time_update_eq. cbn [snd]. auto.
Qed.

Lemma covariance_facts (P : matrix) :
  covariance P -> shape 5 5 P /\ symmetric P /\ psd P /\ diag_nonneg P.
Proof.
  intros (HP & Hs & Hp). repeat split; try assumption; try apply HP.
  apply psd_diag_nonneg; assumption.
Qed.

(** Symmetry with a non-negative diagonal alone is not kept by
    [P = JA*P*JA.T + Q]: the matrix below is symmetric with a zero diagonal
    (and is not positive-semidefinite), and one projection with the [JA] of
    heading 0, speed 25, yaw rate 25*pi makes the first diagonal entry
    negative.  The invariant of the covariance is therefore stated with
    positive-semidefiniteness. *)
Remark nonneg_diagonal_alone_is_not_kept :
  let P := [[0; 0; 1; 0; 0];
            [0; 0; 0; 0; 0];
            [1; 0; 0; 0; 0];
            [0; 0; 0; 0; 0];
            [0; 0; 0; 0; 0]] in
  let J := JA dt [[0]; [0]; [0]; [25]; [25 * PI]] in
  symmetric P /\ diag_nonneg P /\ ~ psd P /\
  at_ (project_cov J P Q) 0 0 < 0.
Proof.
  intros P J. split; [reflexivity|]. split.
  { intros i Hi. cbv [P length] in Hi.
    do 5 (destruct i as [|i]; [cbv [P at_ nth]; lra|]). lia. }
  split.
  { intros Hp. assert (H := Hp [1; 0; -1; 0; 0] eq_refl).
    cbv [P quad dot map] in H. lra. }
  subst J. rewrite JA_eval.
  assert (Hpi := PI_RGT_0). assert (Hpi4 := PI_4).
  assert (Ea : (25 / (25 * PI)) * (cos (25 * PI * dt + 0) - cos 0)
               = - / PI).
  { replace (25 * PI * dt + 0) with (PI / 2) by (unfold dt; field).
    rewrite cos_PI2, cos_0. field. lra. }
  unfold spec_JA. rewrite Ea.
  generalize ((1 / (25 * PI)) * (sin (25 * PI * dt + 0) - sin 0)).
  generalize ((dt * 25 / (25 * PI)) * cos (25 * PI * dt + 0)
              - (25 / (25 * PI) ^ 2) * (sin (25 * PI * dt + 0) - sin 0)).
  intros a15' a14'.
  replace (at_ (project_cov _ P Q) 0 0) with (2 * - / PI + sGPS ^ 2)
    by (subst P; unfold Q; mat_red; ring).
  assert (Hinv : / 4 <= / PI) by (apply Rinv_le_contravar; lra).
  unfold sGPS, dt. lra.
Qed.

(** *** C8 *)

Lemma wrap_quarter_turn_back : wrap (- (PI / 2) + 25 * PI * dt) = 0.
Proof.
  assert (Hpi := PI_RGT_0).
  replace (- (PI / 2) + 25 * PI * dt) with 0 by (unfold dt; field).
  apply wrap_small. lra.
Qed.

(** C8, as stated, fails twice.  Symmetry with a non-negative diagonal is
    not enough: the symmetric matrix below has a zero diagonal, and one
    time update (heading [-pi/2], speed 25, yaw rate 25*pi, reading 1,
    the notebook's [dt] and [Q]; no division by zero) gives [P] a negative
    first diagonal entry.  And from the notebook's symmetric
    positive-semidefinite initial [P], a step with yaw rate 0 in the state
    and reading 1 divides by zero and leaves nan in [P]. *)
Lemma C8_fails_without_psd_and_at_zero_yaw_rate :
  (let P := [[0; 0; 1; 0; 0];
             [0; 0; 0; 0; 0];
             [1; 0; 0; 0; 0];
             [0; 0; 0; 0; 0];
             [0; 0; 0; 0; 0]] in
   let s := mkSample 1 false 0 0 in
   let x := [[0]; [0]; [- (PI / 2)]; [25]; [25 * PI]] in
   symmetric P /\ diag_nonneg P /\ zero_divisor s x = false /\
   at_ (snd (time_update notebook s x P)) 0 0 < 0) /\
  (symmetric P0 /\ psd P0 /\
   checked_run notebook [mkSample 1 true 0 0] [[0]; [0]; [0]; [1]; [0]] P0
   = NotANumber).
Proof.
  split.
  - intros P s x.
    destruct nonneg_diagonal_alone_is_not_kept as (H1 & H2 & _ & H4).
    split; [exact H1|]. split; [exact H2|]. split.
    + apply zero_divisor_false. right. subst x. cbv [item nth].
      assert (Hpi := PI_RGT_0). lra.
    + subst s x. rewrite time_update_eq. cbn [snd yawrate notebook c_dt c_Q].
      rewrite (project_state_ge 1 dt _ eps_le_1), turning_eval.
      unfold spec_turning. rewrite wrap_quarter_turn_back, JA_eval.
      rewrite JA_eval in H4. exact H4.
  - split; [reflexivity|]. split; [apply covariance_P0|].
    cbn [checked_run]. unfold checked_filterstep.
    rewrite (zero_divisor_true (mkSample 1 true 0 0)
               [[0]; [0]; [0]; [1]; [0]] eps_le_1 eq_refl).
    reflexivity.
Qed.

(** C8, amended: for an initial [P] that is symmetric and
    positive-semidefinite (every quadratic form non-negative), with a
    symmetric positive-semidefinite [Q] and a symmetric positive-definite
    2x2 [R] (the notebook's are), over every list of samples on which no
    pass divides by a zero yaw rate, the loop does not raise and the [P] it
    ends with is symmetric, positive-semidefinite and has a non-negative
    diagonal; so is the [P] of one more time update alone that does not
    divide by zero.  Real arithmetic. *)
Theorem C8_covariance_stays_symmetric_psd
  (c : Config) (samples : list Sample) (x P : matrix) :
  shape 5 1 x ->
  shape 5 5 P -> symmetric P -> psd P ->
  covariance (c_Q c) ->
  shape 2 2 (c_R c) -> symmetric (c_R c) -> pd (c_R c) ->
  checked_run c samples x P <> NotANumber ->
  exists x' P',
    checked_run c samples x P = Done (x', P') /\
    run c samples x P = Some (x', P') /\
    shape 5 1 x' /\ shape 5 5 P' /\
    symmetric P' /\ psd P' /\ diag_nonneg P' /\
    forall s,
      Rabs (yawrate s) < eps \/ item x' 4 <> 0 ->
      symmetric (snd (time_update c s x' P')) /\
      psd (snd (time_update c s x' P')) /\
      diag_nonneg (snd (time_update c s x' P')).
Proof.
  intros Hx HP HsP HpP HQ HR HsR HpR Hn.
  assert (Hc : covariance P) by (repeat split; try assumption; apply HP).
  clear HP HsP HpP. revert x P Hx Hc Hn.
  induction samples as [|s rest IH]; intros x P Hx Hc Hn.
  - exists x, P. split; [reflexivity|]. split; [reflexivity|].
    destruct (covariance_facts P Hc) as (H1 & H2 & H3 & H4).
    repeat (split; [assumption|]).
    intros s _.
    destruct (filterstep_covariance c s x P Hx Hc HQ HR HsR HpR)
      as (l & _ & _ & _ & Hcp & _).
    destruct (covariance_facts _ Hcp) as (_ & ? & ? & ?). auto.
  - assert (Hz := checked_run_head c s rest x P Hn).
    destruct (filterstep_covariance c s x P Hx Hc HQ HR HsR HpR)
      as (l & El & Hlx & Hlc & _ & _).
    rewrite (checked_run_step c s rest x P l Hz El) in Hn |- *.
    destruct (IH (l_x l) (l_P l) Hlx Hlc Hn)
      as (x' & P' & Echk & Erun & Hrest).
    exists x', P'. split; [exact Echk|]. split; [|exact Hrest].
    cbn [run]. rewrite El. exact Erun.
Qed.

Lemma C8_covariance_stays_symmetric_psd_witness :
  exists x' P',
    checked_run notebook [mkSample 1 true 1 2; mkSample 0 false 1 2]
                [[0]; [0]; [0]; [10]; [1 / 10]] P0 = Done (x', P') /\
    run notebook [mkSample 1 true 1 2; mkSample 0 false 1 2]
        [[0]; [0]; [0]; [10]; [1 / 10]] P0 = Some (x', P') /\
    shape 5 1 x' /\ shape 5 5 P' /\
    symmetric P' /\ psd P' /\ diag_nonneg P' /\
    forall s,
      Rabs (yawrate s) < eps \/ item x' 4 <> 0 ->
      symmetric (snd (time_update notebook s x' P')) /\
      psd (snd (time_update notebook s x' P')) /\
      diag_nonneg (snd (time_update notebook s x' P')).
Proof.
  apply (C8_covariance_stays_symmetric_psd notebook
           [mkSample 1 true 1 2; mkSample 0 false 1 2]
           [[0]; [0]; [0]; [10]; [1 / 10]] P0).
  - apply shape_lit_5_1.
  - exact shape_P0.
  - reflexivity.
  - apply covariance_P0.
  - exact covariance_Q.
  - exact shape_R_.
  - exact symmetric_R_.
  - exact pd_R_.
  - apply checked_run_two.
    + apply zero_divisor_false. right. cbv [item nth]. lra.
    + exact Rabs0_lt_eps.
Defined.

(** *** C9 *)

(** With an all-zero [R], the position variances of a diagonal [Q] play the
    part of the measurement noise in [S]. *)
Lemma S_zero_R (J P : matrix) (q0 q1 q2 q3 q4 : R) :
  shape 5 5 J -> shape 5 5 P ->
  innovation_cov (JH true) (project_cov J P (diag [q0; q1; q2; q3; q4]))
                 [[0; 0]; [0; 0]]
  = innovation_cov (JH true) (project_cov J P (diag [0; 0; q2; q3; q4]))
                   [[q0; 0]; [0; q1]].
Proof. intros HJ HP. shape_inv HJ. shape_inv HP. mat_eq. Qed.

Lemma sGPS_sq_pos : 0 < sGPS ^ 2.
Proof. unfold sGPS, dt. lra. Qed.

Lemma det2_S_zero_R (J : matrix) :
  shape 5 5 J ->
  0 < det2 (innovation_cov (JH true) (project_cov J P0 Q) [[0; 0]; [0; 0]]).
Proof.
  intros HJ. unfold Q. rewrite (S_zero_R J P0 _ _ _ _ _ HJ shape_P0).
  assert (Hc : covariance
                 (project_cov J P0
                    (diag [0; 0; sCourse ^ 2; sVelocity ^ 2; sYaw ^ 2]))).
  { apply covariance_project_cov;
      [assumption | exact covariance_P0 |].
    apply psd_diag5; try apply pow2_ge_0; lra. }
  destruct Hc as (Hsh & Hsy & Hps).
  destruct (symmetric_inv _ Hsh Hsy)
    as (p00 & p01 & p02 & p03 & p04 & p11 & p12 & p13 & p14 & p22 &
        p23 & p24 & p33 & p34 & p44 & EP).
  rewrite EP in Hps |- *.
  assert (Hq := sGPS_sq_pos).
  apply det2_S_pos; [assumption | assumption | nra].
Qed.

(** C9, as stated, fails in its first half: with an all-zero [R] (zero
    variance on both channels), the notebook's [dt], [Q] and initial [P],
    and a step that carries a position fix, [S] is the position block of
    the projected [P], its determinant is positive, the inversion succeeds
    and the step returns a state and a covariance. *)
Lemma C9_zero_R_step_with_fix_returns :
  let c := mkConfig dt Q [[0; 0]; [0; 0]] in
  det2 (c_R c) = 0 /\
  exists l,
    filterstep c (mkSample 0 true 0 0) [[0]; [0]; [0]; [1]; [0]] P0 = Some l
    /\ 0 < det2 (l_S l) /\ inv (l_S l) <> None.
Proof.
  intros c. split; [cbv [c c_R det2 at_ nth]; ring|].
  unfold filterstep. rewrite time_update_eq. unfold measurement_update.
  cbn [GPS c c_R c_Q c_dt yawrate].
  set (J := JA dt (project_state 0 dt [[0]; [0]; [0]; [1]; [0]])).
  assert (Hd := det2_S_zero_R J (shape_JA _ _)).
  rewrite (inv_some _ (Rgt_not_eq _ _ Hd)).
  eexists. split; [reflexivity|]. cbn [l_S].
  split; [exact Hd|]. rewrite (inv_some _ (Rgt_not_eq _ _ Hd)). discriminate.
Qed.

(** C9, amended: for a 5x1 state and 5x5 [P] and [Q], on a step whose
    time update does not divide by zero, (a) if [R] is diagonal with a
    zero variance, then without a position fix [S = R], the inversion
    fails and the step raises instead of returning a state; (b) if [R] is
    symmetric positive-definite and [P] and [Q] are symmetric
    positive-semidefinite, the inversion of [S] succeeds, with or without a
    fix, and [S = R] exactly on a step without a fix.  Nothing is claimed
    for a zero variance on a step with a fix. *)
Theorem C9_inversion_of_S
  (c : Config) (s : Sample) (x P : matrix) :
  shape 5 1 x -> shape 5 5 P -> shape 5 5 (c_Q c) ->
  Rabs (yawrate s) < eps \/ item x 4 <> 0 ->
  (forall r0 r1,
     c_R c = [[r0; 0]; [0; r1]] -> r0 = 0 \/ r1 = 0 -> GPS s = false ->
     innovation_cov (JH (GPS s)) (snd (time_update c s x P)) (c_R c)
     = c_R c /\
     inv (c_R c) = None /\
     checked_filterstep c s x P = Raised) /\
  (shape 2 2 (c_R c) -> symmetric (c_R c) -> pd (c_R c) ->
   symmetric P -> psd P -> symmetric (c_Q c) -> psd (c_Q c) ->
   exists l,
     checked_filterstep c s x P = Done l /\
     inv (l_S l) <> None /\
     (GPS s = false -> l_S l = c_R c)).
Proof.
  intros Hx HP HQ Hz.
  assert (Hreg := checked_filterstep_regular c s x P
                    (zero_divisor_false s x Hz)).
  split.
  - intros r0 r1 ER Hr Hg.
    assert (HR : shape 2 2 (c_R c)) by (rewrite ER; shape_lit).
    assert (Hd : det2 (c_R c) = 0).
    { rewrite ER. cbv [det2 at_ nth]. destruct Hr as [-> | ->]; ring. }
    assert (ES : innovation_cov (JH (GPS s)) (snd (time_update c s x P))
                   (c_R c) = c_R c).
    { rewrite Hg, time_update_eq. cbn [snd].
      apply S_no_fix; [|assumption].
      apply shape_project_cov; try assumption. apply shape_JA. }
    split; [exact ES|]. split; [apply inv_none; exact Hd|].
    rewrite Hreg. unfold filterstep.
    rewrite time_update_eq in ES |- *. cbn [snd] in ES.
    unfold measurement_update. rewrite ES, (inv_none _ Hd). reflexivity.
  - intros HR HsR HpR HsP HpP HsQ HpQ.
    assert (HcP : covariance P) by (repeat split; try assumption; apply HP).
    assert (HcQ : covariance (c_Q c))
      by (repeat split; try assumption; apply HQ).
    destruct (filterstep_covariance c s x P Hx HcP HcQ HR HsR HpR)
      as (l & El & _ & _ & _ & Hd).
    exists l. split; [rewrite Hreg, El; reflexivity|]. split.
    + rewrite (inv_some _ (Rgt_not_eq _ _ Hd)). discriminate.
    + intros Hg.
      rewrite (filterstep_no_fix c s x P Hg Hx HP HQ HR
                 (Rgt_not_eq _ _ (pd_det2_pos _ HR HsR HpR))) in El.
      injection El as <-. reflexivity.
Qed.

Lemma C9_inversion_of_S_witness :
  checked_filterstep (mkConfig dt Q [[0; 0]; [0; 36]]) (mkSample 0 false 1 2)
                     [[0]; [0]; [0]; [10]; [1 / 10]] P0 = Raised /\
  exists l,
    checked_filterstep notebook (mkSample 0 false 1 2)
                       [[0]; [0]; [0]; [10]; [1 / 10]] P0 = Done l /\
    inv (l_S l) <> None /\
    l_S l = R_.
Proof.
  split.
  - destruct (C9_inversion_of_S (mkConfig dt Q [[0; 0]; [0; 36]])
                (mkSample 0 false 1 2) [[0]; [0]; [0]; [10]; [1 / 10]] P0
                (shape_lit_5_1 _ _ _ _ _) shape_P0 shape_Q
                (or_introl Rabs0_lt_eps))
      as [H _].
    destruct (H 0 36 eq_refl (or_introl eq_refl) eq_refl) as (_ & _ & E).
    exact E.
  - destruct (C9_inversion_of_S notebook (mkSample 0 false 1 2)
                [[0]; [0]; [0]; [10]; [1 / 10]] P0
                (shape_lit_5_1 _ _ _ _ _) shape_P0 shape_Q
                (or_introl Rabs0_lt_eps))
      as [_ H].
    destruct (H shape_R_ symmetric_R_ pd_R_ (proj1 (proj2 covariance_P0))
                (proj2 (proj2 covariance_P0))
                (proj1 (proj2 covariance_Q)) (proj2 (proj2 covariance_Q)))
      as (l & El & Hi & HS).
    exists l. split; [exact El|]. split; [exact Hi|].
    apply HS. reflexivity.
Defined.

(** ** More on the time update *)

Lemma mod_congruent (a b : R) : exists k : Z, mod_ a b = a - b * IZR k.
Proof. exists (Int_part (a / b)). reflexivity. Qed.

Lemma wrap_congruent (a : R) : exists k : Z, wrap a = a - 2 * IZR k * PI.
Proof.
  destruct (mod_congruent (a + PI) (2 * PI)) as [k Hk].
  exists k. unfold wrap. rewrite Hk. ring.
Qed.

Lemma sin_cos_Zperiod (a : R) (k : Z) :
  sin (a - 2 * IZR k * PI) = sin a /\ cos (a - 2 * IZR k * PI) = cos a.
Proof.
  assert (Hs : sin (IZR k * PI) = 0) by (apply sin_eq_0_1; exists k; reflexivity).
  assert (Hs2 : sin (2 * IZR k * PI) = 0).
  { apply sin_eq_0_1. exists (2 * k)%Z. rewrite mult_IZR. reflexivity. }
  assert (Hc2 : cos (2 * IZR k * PI) = 1).
  { replace (2 * IZR k * PI) with (2 * (IZR k * PI)) by ring.
    rewrite cos_2a_sin, Hs. ring. }
  rewrite sin_minus, cos_minus, Hs2, Hc2. split; ring.
Qed.

Lemma sin_wrap (a : R) : sin (wrap a) = sin a.
Proof.
  destruct (wrap_congruent a) as [k ->]. apply sin_cos_Zperiod.
Qed.

Lemma cos_wrap (a : R) : cos (wrap a) = cos a.
Proof.
  destruct (wrap_congruent a) as [k ->]. apply sin_cos_Zperiod.
Qed.

(** X1: in the turning regime the new heading differs from
    [psi + dpsi*dt] by a whole number of turns, so it points in the same
    direction. *)
Theorem X1_wrap_keeps_direction (yr dt x y psi v dpsi : R) :
  eps <= Rabs yr ->
  let psi' := item (project_state yr dt [[x]; [y]; [psi]; [v]; [dpsi]]) 2 in
  (exists k : Z, psi' = psi + dpsi * dt - 2 * IZR k * PI) /\
  sin psi' = sin (psi + dpsi * dt) /\
  cos psi' = cos (psi + dpsi * dt).
Proof.
  intros Hyr psi'. subst psi'.
  rewrite project_state_ge, turning_eval by assumption.
  unfold spec_turning, item. cbn [nth].
  split; [apply wrap_congruent|]. split; [apply sin_wrap | apply cos_wrap].
Qed.

Lemma X1_wrap_keeps_direction_witness :
  let psi' := item (project_state 1 1 [[0]; [0]; [3]; [1]; [2]]) 2 in
  (exists k : Z, psi' = 3 + 2 * 1 - 2 * IZR k * PI) /\
  sin psi' = sin (3 + 2 * 1) /\
  cos psi' = cos (3 + 2 * 1).
Proof. apply (X1_wrap_keeps_direction 1 1 0 0 3 1 2). exact eps_le_1. Defined.

(** X2: a heading advance that stays inside [-pi, pi) is not changed by
    the wrap. *)
Theorem X2_wrap_identity_in_range (yr dt x y psi v dpsi : R) :
  eps <= Rabs yr ->
  - PI <= psi + dpsi * dt < PI ->
  item (project_state yr dt [[x]; [y]; [psi]; [v]; [dpsi]]) 2
  = psi + dpsi * dt.
Proof.
  intros Hyr Hr.
  rewrite project_state_ge, turning_eval by assumption.
  unfold spec_turning, item. cbn [nth]. apply wrap_small. assumption.
Qed.

Lemma X2_wrap_identity_in_range_witness :
  item (project_state 1 1 [[0]; [0]; [0]; [1]; [1]]) 2 = 0 + 1 * 1.
Proof.
  apply (X2_wrap_identity_in_range 1 1 0 0 0 1 1); [exact eps_le_1|].
  assert (H := PI2_3_2). assert (H4 := PI_RGT_0). lra.
Defined.

(** X3: in the straight regime the position moves by exactly [|v|*dt]:
    the squared displacement is [(v*dt)^2]. *)
Theorem X3_straight_displacement (yr dt x y psi v dpsi : R) :
  Rabs yr < eps ->
  let X' := project_state yr dt [[x]; [y]; [psi]; [v]; [dpsi]] in
  (item X' 0 - x) ^ 2 + (item X' 1 - y) ^ 2 = (v * dt) ^ 2.
Proof.
  intros Hyr X'. subst X'.
  rewrite project_state_lt, straight_eval by assumption.
  unfold spec_straight, item. cbn [nth].
  assert (H := sin2_cos2 psi). unfold Rsqr in H.
  replace ((x + v * dt * cos psi - x) ^ 2 + (y + v * dt * sin psi - y) ^ 2)
    with ((v * dt) ^ 2 * (sin psi * sin psi + cos psi * cos psi)) by ring.
  rewrite H. ring.
Qed.

Lemma X3_straight_displacement_witness :
  let X' := project_state 0 (1 / 50) [[3]; [4]; [1]; [10]; [2]] in
  (item X' 0 - 3) ^ 2 + (item X' 1 - 4) ^ 2 = (10 * (1 / 50)) ^ 2.
Proof.
  apply (X3_straight_displacement 0 (1 / 50) 3 4 1 10 2). exact Rabs0_lt_eps.
Defined.

Lemma chord_sq (th psi : R) :
  (sin (th + psi) - sin psi) ^ 2 + (- cos (th + psi) + cos psi) ^ 2
  = 2 - 2 * cos th.
Proof.
  assert (H1 := sin2_cos2 (th + psi)). assert (H2 := sin2_cos2 psi).
  unfold Rsqr in H1, H2.
  assert (H3 := cos_minus (th + psi) psi).
  replace (th + psi - psi) with th in H3 by ring.
  rewrite H3.
  replace ((sin (th + psi) - sin psi) ^ 2 + (- cos (th + psi) + cos psi) ^ 2)
    with ((sin (th + psi) * sin (th + psi) + cos (th + psi) * cos (th + psi))
          + (sin psi * sin psi + cos psi * cos psi)
          - 2 * (cos (th + psi) * cos psi + sin (th + psi) * sin psi))
    by ring.
  rewrite H1, H2. ring.
Qed.

Lemma sin_sq_le_pos (t : R) : 0 <= t -> sin t * sin t <= t * t.
Proof.
  intros Ht. assert (Hb := SIN_bound t).
  destruct (Rle_or_lt 1 t) as [H1 | H1].
  - assert (sin t * sin t <= 1) by nra. nra.
  - assert (Hpi := PI2_3_2). assert (Hpi0 := PI_RGT_0).
    assert (H0 : 0 <= sin t) by (apply sin_ge_0; lra).
    destruct Ht as [Hp | <-]; [|rewrite sin_0; lra].
    assert (H := sin_lt_x t Hp). nra.
Qed.

Lemma sin_sq_le (t : R) : sin t * sin t <= t * t.
Proof.
  destruct (Rle_or_lt 0 t) as [Hp | Hn]; [apply sin_sq_le_pos; assumption|].
  assert (H := sin_sq_le_pos (- t) ltac:(lra)).
  rewrite sin_neg in H. lra.
Qed.

Lemma one_minus_cos_le (th : R) : 2 - 2 * cos th <= th * th.
Proof.
  replace th with (2 * (th / 2)) at 1 by field.
  rewrite cos_2a_sin.
  assert (H := sin_sq_le (th / 2)). nra.
Qed.

(** X4: in the turning regime with a non-zero yaw rate in the state, the
    displacement is the chord of the arc, [(v/dpsi)^2 * (2 - 2 cos(dpsi*dt))]
    squared, and it is never longer than the arc [|v|*dt]. *)
Theorem X4_turning_displacement (yr dt x y psi v dpsi : R) :
  eps <= Rabs yr -> dpsi <> 0 ->
  let X' := project_state yr dt [[x]; [y]; [psi]; [v]; [dpsi]] in
  (item X' 0 - x) ^ 2 + (item X' 1 - y) ^ 2
  = (v / dpsi) ^ 2 * (2 - 2 * cos (dpsi * dt)) /\
  (item X' 0 - x) ^ 2 + (item X' 1 - y) ^ 2 <= (v * dt) ^ 2.
Proof.
  intros Hyr Hd X'. subst X'.
  rewrite project_state_ge, turning_eval by assumption.
  unfold spec_turning, item. cbn [nth].
  assert (E : (x + v / dpsi * (sin (dpsi * dt + psi) - sin psi) - x) ^ 2
              + (y + v / dpsi * (- cos (dpsi * dt + psi) + cos psi) - y) ^ 2
              = (v / dpsi) ^ 2 * (2 - 2 * cos (dpsi * dt))).
  { rewrite <- (chord_sq (dpsi * dt) psi). ring. }
  rewrite E. split; [reflexivity|].
  assert (H := one_minus_cos_le (dpsi * dt)).
  assert (Hsq : 0 <= (v / dpsi) ^ 2) by apply pow2_ge_0.
  replace ((v * dt) ^ 2) with ((v / dpsi) ^ 2 * (dpsi * dt * (dpsi * dt)))
    by (field; assumption).
  apply Rmult_le_compat_l; assumption.
Qed.

Lemma X4_turning_displacement_witness :
  let X' := project_state 1 (1 / 50) [[0]; [0]; [0]; [10]; [1 / 10]] in
  (item X' 0 - 0) ^ 2 + (item X' 1 - 0) ^ 2
  = (10 / (1 / 10)) ^ 2 * (2 - 2 * cos (1 / 10 * (1 / 50))) /\
  (item X' 0 - 0) ^ 2 + (item X' 1 - 0) ^ 2 <= (10 * (1 / 50)) ^ 2.
Proof.
  apply (X4_turning_displacement 1 (1 / 50) 0 0 0 10 (1 / 10)).
  - exact eps_le_1.
  - lra.
Defined.

(** ** More on the covariance *)

Lemma quad_unit (A : matrix) (i : nat) :
  shape 5 5 A -> (i < 5)%nat ->
  exists e, length e = 5%nat /\ quad A e = at_ A i i /\
            forall B, shape 5 5 B -> quad B e = at_ B i i.
Proof.
  intros HA Hi.
  assert (Hq : forall e, (forall B, shape 5 5 B -> quad B e = at_ B i i) ->
               length e = 5%nat ->
               exists e, length e = 5%nat /\ quad A e = at_ A i i /\
                 forall B, shape 5 5 B -> quad B e = at_ B i i).
  { intros e He Hl. exists e. auto. }
  destruct i as [|[|[|[|[|i]]]]]; [ | | | | | lia].
  - apply (Hq [1; 0; 0; 0; 0]); [|reflexivity].
    intros B HB. shape_inv HB. mat_red. ring.
  - apply (Hq [0; 1; 0; 0; 0]); [|reflexivity].
    intros B HB. shape_inv HB. mat_red. ring.
  - apply (Hq [0; 0; 1; 0; 0]); [|reflexivity].
    intros B HB. shape_inv HB. mat_red. ring.
  - apply (Hq [0; 0; 0; 1; 0]); [|reflexivity].
    intros B HB. shape_inv HB. mat_red. ring.
  - apply (Hq [0; 0; 0; 0; 1]); [|reflexivity].
    intros B HB. shape_inv HB. mat_red. ring.
Qed.

(** X5: after the covariance projection of a time update that does not
    divide by zero, every quadratic form of [P], and in particular every
    variance on its diagonal, is at least that of [Q]. *)
Theorem X5_projection_adds_process_noise
  (c : Config) (s : Sample) (x P : matrix) :
  Rabs (yawrate s) < eps \/ item x 4 <> 0 ->
  shape 5 5 P -> psd P -> shape 5 5 (c_Q c) ->
  let Pp := snd (time_update c s x P) in
  (forall v, length v = 5%nat -> quad (c_Q c) v <= quad Pp v) /\
  (forall i, (i < 5)%nat -> at_ (c_Q c) i i <= at_ Pp i i).
Proof.
  intros _ HP Hp HQ Pp. subst Pp. rewrite time_update_eq. cbn [snd].
  set (J := JA (c_dt c) (project_state (yawrate s) (c_dt c) x)).
  assert (HJ : shape 5 5 J) by apply shape_JA.
  assert (Hall : forall v, length v = 5%nat ->
                 quad (c_Q c) v <= quad (project_cov J P (c_Q c)) v).
  { intros v Hv. rewrite quad_project_cov by assumption.
    assert (0 <= quad P (map (fun col => dot col v) (T J))).
    { apply Hp. destruct HP as [-> _]. reflexivity. }
    lra. }
  split; [exact Hall|].
  intros i Hi.
  destruct (quad_unit (c_Q c) i HQ Hi) as (e & He & Eq & EB).
  rewrite <- Eq, <- (EB (project_cov J P (c_Q c))).
  - apply Hall. assumption.
  - apply shape_project_cov; assumption.
Qed.

Lemma X5_projection_adds_process_noise_witness :
  let Pp := snd (time_update notebook (mkSample 1 true 3 4)
                             [[0]; [0]; [0]; [10]; [1 / 10]] P0) in
  (forall v, length v = 5%nat -> quad Q v <= quad Pp v) /\
  (forall i, (i < 5)%nat -> at_ Q i i <= at_ Pp i i).
Proof.
  apply (X5_projection_adds_process_noise notebook (mkSample 1 true 3 4)
           [[0]; [0]; [0]; [10]; [1 / 10]] P0).
  - right. cbv [item nth]. lra.
  - exact shape_P0.
  - apply covariance_P0.
  - exact shape_Q.
Defined.

Lemma Sinv_form_nonneg (s00 s01 s11 u w : R) :
  0 < s11 -> 0 < s00 * s11 - s01 * s01 ->
  0 <= (s11 * u * u - 2 * s01 * u * w + s00 * w * w)
       / (s00 * s11 - s01 * s01).
Proof.
  intros H11 Hdet.
  apply Rmult_le_pos; [|apply Rlt_le, Rinv_0_lt_compat; assumption].
  apply (Rmult_nonneg_reg s11); [assumption|].
  replace (s11 * (s11 * u * u - 2 * s01 * u * w + s00 * w * w))
    with ((s11 * u - s01 * w) * (s11 * u - s01 * w)
          + (s00 * s11 - s01 * s01) * (w * w)) by ring.
  apply Rplus_le_le_0_compat.
  - apply (Rle_0_sqr (s11 * u - s01 * w)).
  - apply Rmult_le_pos; [lra | apply (Rle_0_sqr w)].
Qed.

Section CorrectionBounds.
Variables p00 p01 p02 p03 p04 p11 p12 p13 p14 p22 p23 p24 p33 p34 p44 : R.
Variables a b d : R.

Local Abbreviation P :=
  (sym5 p00 p01 p02 p03 p04 p11 p12 p13 p14 p22 p23 p24 p33 p34 p44).
Local Abbreviation Rm := ([[a; b]; [b; d]]).
Local Abbreviation S := (innovation_cov (JH true) P Rm).
Local Abbreviation K := (gain P (JH true) (adj_over_det S)).
Local Abbreviation P' := (correct_cov K (JH true) P).
Local Abbreviation D := ((p00 + a) * (p11 + d) - (p01 + b) * (p01 + b)).

Hypothesis HpsdP : psd P.
Hypothesis Ha : 0 < a.
Hypothesis Hd : 0 < d.
Hypothesis Hdet : 0 < a * d - b * b.

Lemma D_pos : 0 < D.
Proof.
  rewrite <- (det2_S_fix p00 p01 p02 p03 p04 p11 p12 p13 p14 p22 p23 p24
                            p33 p34 p44 a b d).
  apply det2_S_pos; assumption.
Qed.

Lemma S11_pos : 0 < p11 + d.
Proof.
  assert (H := block_nonneg _ _ _ _ _ _ _ _ _ _ _ _ _ _ _ HpsdP 0 1). lra.
Qed.

Lemma quad_drop (v0 v1 v2 v3 v4 : R) :
  let w0 := p00 * v0 + p01 * v1 + p02 * v2 + p03 * v3 + p04 * v4 in
  let w1 := p01 * v0 + p11 * v1 + p12 * v2 + p13 * v3 + p14 * v4 in
  quad P [v0; v1; v2; v3; v4] - quad P' [v0; v1; v2; v3; v4]
  = ((p11 + d) * w0 * w0 - 2 * (p01 + b) * w0 * w1 + (p00 + a) * w1 * w1)
    / D.
Proof.
  intros w0 w1. assert (Hne : D <> 0) by (apply Rgt_not_eq, D_pos).
  rewrite S_fix. subst w0 w1. mat_red. field. exact Hne.
Qed.

Lemma quad_P'_le (v : list R) :
  length v = 5%nat -> quad P' v <= quad P v.
Proof.
  intros Hv. list_of_length v.
  match goal with
  | |- quad _ [?v0; ?v1; ?v2; ?v3; ?v4] <= _ =>
      assert (E := quad_drop v0 v1 v2 v3 v4)
  end.
  cbv zeta in E.
  match type of E with
  | _ = (_ * ?u * ?u - _ * ?u * ?w + _ * ?w * ?w) / _ =>
      assert (H := Sinv_form_nonneg (p00 + a) (p01 + b) (p11 + d) u w
                     S11_pos D_pos)
  end.
  lra.
Qed.

Lemma P'_00_le_R : at_ P' 0 0 <= a.
Proof.
  assert (Hne : D <> 0) by (apply Rgt_not_eq, D_pos).
  assert (E : a - at_ P' 0 0
              = ((p11 + d) * a * a - 2 * (p01 + b) * a * b
                 + (p00 + a) * b * b) / D).
  { rewrite S_fix. mat_red. field. exact Hne. }
  assert (H := Sinv_form_nonneg (p00 + a) (p01 + b) (p11 + d) a b
                 S11_pos D_pos).
  lra.
Qed.

Lemma P'_11_le_R : at_ P' 1 1 <= d.
Proof.
  assert (Hne : D <> 0) by (apply Rgt_not_eq, D_pos).
  assert (E : d - at_ P' 1 1
              = ((p11 + d) * b * b - 2 * (p01 + b) * b * d
                 + (p00 + a) * d * d) / D).
  { rewrite S_fix. mat_red. field. exact Hne. }
  assert (H := Sinv_form_nonneg (p00 + a) (p01 + b) (p11 + d) b d
                 S11_pos D_pos).
  lra.
Qed.

Lemma gain_equation : mul K S = mul P (T (JH true)).
Proof.
  assert (Hne : D <> 0) by (apply Rgt_not_eq, D_pos).
  rewrite S_fix. mat_red. rows_eq; field; exact Hne.
Qed.

End CorrectionBounds.

Lemma diag_le_of_quad_le (A B : matrix) :
  shape 5 5 A -> shape 5 5 B ->
  (forall v, length v = 5%nat -> quad A v <= quad B v) ->
  forall i, (i < 5)%nat -> at_ A i i <= at_ B i i.
Proof.
  intros HA HB Hq i Hi.
  destruct (quad_unit A i HA Hi) as (e & He & Eq & EB).
  rewrite <- Eq, <- (EB B HB). apply Hq. assumption.
Qed.

(** X6: the covariance correction never raises a quadratic form of [P]: no
    variance on the diagonal grows in a measurement update, with or without
    a fix. *)
Theorem X6_correction_never_adds_uncertainty
  (c : Config) (s : Sample) (J x P : matrix) :
  shape 5 1 x -> shape 5 5 P -> symmetric P -> psd P ->
  shape 2 2 (c_R c) -> symmetric (c_R c) -> pd (c_R c) ->
  exists l,
    measurement_update c s J x P = Some l /\
    (forall v, length v = 5%nat -> quad (l_P l) v <= quad P v) /\
    (forall i, (i < 5)%nat -> at_ (l_P l) i i <= at_ P i i).
Proof.
  intros Hx HP HsP HpP HR HsR HpR.
  assert (Hc : covariance P) by (repeat split; try assumption; apply HP).
  destruct (GPS s) eqn:Hg.
  - destruct (measurement_update_fix c s J x P Hg Hx Hc HR HsR HpR)
      as (_ & E & _ & Hc').
    eexists. split; [exact E|]. cbn [l_P].
    assert (Hq : forall v, length v = 5%nat ->
              quad (correct_cov
                      (gain P (JH true)
                         (adj_over_det (innovation_cov (JH true) P (c_R c))))
                      (JH true) P) v <= quad P v).
    { destruct (pd2_entries _ HR HsR HpR)
        as (a & b & d & ER & Ha & Hd & Hdet).
      destruct (symmetric_inv P HP HsP)
        as (p00 & p01 & p02 & p03 & p04 & p11 & p12 & p13 & p14 & p22 &
            p23 & p24 & p33 & p34 & p44 & EP).
      rewrite ER, EP. rewrite EP in HpP.
      intros v Hv. apply quad_P'_le; assumption. }
    split; [exact Hq|].
    apply diag_le_of_quad_le; [apply Hc' | assumption | exact Hq].
  - eexists. split.
    + apply measurement_update_no_fix; try assumption.
      apply Rgt_not_eq, pd_det2_pos; assumption.
    + cbn [l_P]. split; intros; lra.
Qed.

Lemma X6_correction_never_adds_uncertainty_witness :
  exists l,
    measurement_update notebook (mkSample 0 true 3 4) I_
                       [[1]; [2]; [0]; [10]; [0]] P0 = Some l /\
    (forall v, length v = 5%nat -> quad (l_P l) v <= quad P0 v) /\
    (forall i, (i < 5)%nat -> at_ (l_P l) i i <= at_ P0 i i).
Proof.
  apply (X6_correction_never_adds_uncertainty notebook (mkSample 0 true 3 4)
           I_ [[1]; [2]; [0]; [10]; [0]] P0).
  - apply shape_lit_5_1.
  - exact shape_P0.
  - reflexivity.
  - apply covariance_P0.
  - exact shape_R_.
  - exact symmetric_R_.
  - exact pd_R_.
Defined.

(** X7: after a measurement update with a position fix, the two position
    variances of [P] are at most the measurement variances on the diagonal
    of [R], however large they were before. *)
Theorem X7_position_variance_at_most_R
  (c : Config) (s : Sample) (J x P : matrix) :
  GPS s = true ->
  shape 5 1 x -> shape 5 5 P -> symmetric P -> psd P ->
  shape 2 2 (c_R c) -> symmetric (c_R c) -> pd (c_R c) ->
  exists l,
    measurement_update c s J x P = Some l /\
    at_ (l_P l) 0 0 <= at_ (c_R c) 0 0 /\
    at_ (l_P l) 1 1 <= at_ (c_R c) 1 1.
Proof.
  intros Hg Hx HP HsP HpP HR HsR HpR.
  assert (Hc : covariance P) by (repeat split; try assumption; apply HP).
  destruct (measurement_update_fix c s J x P Hg Hx Hc HR HsR HpR)
    as (_ & E & _ & _).
  eexists. split; [exact E|]. cbn [l_P].
  destruct (pd2_entries _ HR HsR HpR) as (a & b & d & ER & Ha & Hd & Hdet).
  destruct (symmetric_inv P HP HsP)
    as (p00 & p01 & p02 & p03 & p04 & p11 & p12 & p13 & p14 & p22 &
        p23 & p24 & p33 & p34 & p44 & EP).
  rewrite ER, EP. rewrite EP in HpP.
  split.
  - change (at_ [[a; b]; [b; d]] 0 0) with a. apply P'_00_le_R; assumption.
  - change (at_ [[a; b]; [b; d]] 1 1) with d. apply P'_11_le_R; assumption.
Qed.

Lemma X7_position_variance_at_most_R_witness :
  exists l,
    measurement_update notebook (mkSample 0 true 3 4) I_
                       [[1]; [2]; [0]; [10]; [0]] P0 = Some l /\
    at_ (l_P l) 0 0 <= at_ R_ 0 0 /\
    at_ (l_P l) 1 1 <= at_ R_ 1 1.
Proof.
  apply (X7_position_variance_at_most_R notebook (mkSample 0 true 3 4)
           I_ [[1]; [2]; [0]; [10]; [0]] P0).
  - reflexivity.
  - apply shape_lit_5_1.
  - exact shape_P0.
  - reflexivity.
  - apply covariance_P0.
  - exact shape_R_.
  - exact symmetric_R_.
  - exact pd_R_.
Defined.

Lemma add_gain_zero_residual (x K : matrix) (s : Sample) :
  shape 5 1 x -> shape 5 2 K ->
  mx s = item x 0 -> my s = item x 1 ->
  add x (mul K (residual (Z_of s) (hx x))) = x.
Proof.
  intros Hx HK H0 H1. unfold Z_of. rewrite H0, H1.
  shape_inv Hx. shape_inv HK. mat_eq.
Qed.

(** X9: when the measurement column equals the predicted position, the
    measurement update leaves the state as it is, also on a step with a
    fix. *)
Theorem X9_consistent_measurement_keeps_state
  (c : Config) (s : Sample) (J x P : matrix) :
  mx s = item x 0 -> my s = item x 1 ->
  shape 5 1 x -> shape 5 5 P -> symmetric P -> psd P ->
  shape 2 2 (c_R c) -> symmetric (c_R c) -> pd (c_R c) ->
  exists l, measurement_update c s J x P = Some l /\ l_x l = x.
Proof.
  intros H0 H1 Hx HP HsP HpP HR HsR HpR.
  assert (Hc : covariance P) by (repeat split; try assumption; apply HP).
  destruct (GPS s) eqn:Hg.
  - destruct (measurement_update_fix c s J x P Hg Hx Hc HR HsR HpR)
      as (_ & E & _ & _).
    eexists. split; [exact E|]. cbn [l_x].
    apply add_gain_zero_residual; try assumption.
    apply shape_gain; [assumption | apply shape_adj_over_det].
  - eexists. split.
    + apply measurement_update_no_fix; try assumption.
      apply Rgt_not_eq, pd_det2_pos; assumption.
    + reflexivity.
Qed.

Lemma X9_consistent_measurement_keeps_state_witness :
  exists l,
    measurement_update notebook (mkSample 0 true 1 2) I_
                       [[1]; [2]; [0]; [10]; [0]] P0 = Some l /\
    l_x l = [[1]; [2]; [0]; [10]; [0]].
Proof.
  apply (X9_consistent_measurement_keeps_state notebook
           (mkSample 0 true 1 2) I_ [[1]; [2]; [0]; [10]; [0]] P0).
  - reflexivity.
  - reflexivity.
  - apply shape_lit_5_1.
  - exact shape_P0.
  - reflexivity.
  - apply covariance_P0.
  - exact shape_R_.
  - exact symmetric_R_.
  - exact pd_R_.
Defined.

(** ** The buffers *)

Lemma saved_savestates (x Z P K : matrix) (b : Plot.buffers) :
  map (@length R) (Plot.saved (savestates x Z P K b))
  = map S (map (@length R) (Plot.saved b)).
Proof.
  destruct b. cbn [Plot.saved savestates map Plot.x0 Plot.x1 Plot.x2 Plot.x3
    Plot.x4 Plot.Zx Plot.Zy Plot.Px Plot.Py Plot.Pdx Plot.Pdy Plot.Pddx
    Plot.Kx Plot.Ky Plot.Kdx Plot.Kdy Plot.Kddx].
  rewrite !last_length. reflexivity.
Qed.

Lemma map_S_add (k : nat) (l : list nat) :
  map S (map (fun n => (n + k)%nat) l) = map (fun n => (n + S k)%nat) l.
Proof.
  rewrite map_map. apply map_ext. intros n. lia.
Qed.

Lemma map_add_0 (l : list nat) : map (fun n => (n + 0)%nat) l = l.
Proof.
  rewrite <- (map_id l) at 2. apply map_ext. intros n. lia.
Qed.

Lemma filterstep_log_eq (c : Config) (s : Sample) (x P : matrix)
  (b : Plot.buffers) :
  filterstep_log c s x P b
  = match filterstep c s x P with
    | None => (append_dstate (yawrate s) b, None)
    | Some l => (savestates (l_x l) (l_Z l) (l_P l) (l_K l)
                            (append_dstate (yawrate s) b), Some l)
    end.
Proof. reflexivity. Qed.

(** X10: the loop with the buffers computes the same [x] and [P] as the
    loop alone, and raises when it does.  If [k] passes completed, each of
    the seventeen lists of [savestates] has grown by [k] entries and [Zx],
    [Zy] by the measurement columns of those passes.  [dstate] has one
    entry per completed pass, and one more, for the pass that raised, when
    the loop raised. *)
Theorem X10_buffers_follow_the_loop
  (c : Config) (samples : list Sample) (x P : matrix) (b : Plot.buffers) :
  let b' := fst (run_log c samples x P b) in
  snd (run_log c samples x P b) = run c samples x P /\
  exists k,
    map (@length R) (Plot.saved b')
    = map (fun n => (n + k)%nat) (map (@length R) (Plot.saved b)) /\
    Plot.Zx b' = Plot.Zx b ++ map mx (firstn k samples) /\
    Plot.Zy b' = Plot.Zy b ++ map my (firstn k samples) /\
    match run c samples x P with
    | Some _ =>
        k = length samples /\
        Plot.dstate b'
        = Plot.dstate b ++ map (fun s => dstate_entry (yawrate s)) samples
    | None =>
        (k < length samples)%nat /\
        Plot.dstate b'
        = Plot.dstate b
          ++ map (fun s => dstate_entry (yawrate s)) (firstn (S k) samples)
    end.
Proof.
  cbv zeta. revert x P b.
  induction samples as [|s rest IH]; intros x P b.
  - cbn [run_log run fst snd]. split; [reflexivity|].
    exists 0%nat. rewrite map_add_0. cbn [firstn map length].
    rewrite !app_nil_r. auto.
  - cbn [run_log run]. rewrite filterstep_log_eq.
    destruct (filterstep c s x P) as [l|] eqn:El.
    + destruct (IH (l_x l) (l_P l)
                  (savestates (l_x l) (l_Z l) (l_P l) (l_K l)
                              (append_dstate (yawrate s) b)))
        as (Hrun & k & Hlen & HZx & HZy & Hd).
      split; [exact Hrun|]. exists (S k).
      assert (EZ : l_Z l = [[mx s]; [my s]])
        by (apply (filterstep_residual c s x P l El)).
      split.
      { rewrite Hlen, saved_savestates.
        destruct b; cbn [append_dstate Plot.saved Plot.x0 Plot.x1 Plot.x2
          Plot.x3 Plot.x4 Plot.Zx Plot.Zy Plot.Px Plot.Py Plot.Pdx Plot.Pdy
          Plot.Pddx Plot.Kx Plot.Ky Plot.Kdx Plot.Kdy Plot.Kddx].
        rewrite <- map_S_add, !map_map. apply map_ext. intros n. lia. }
      split.
      { rewrite HZx, EZ. destruct b. cbn. rewrite <- app_assoc. reflexivity. }
      split.
      { rewrite HZy, EZ. destruct b. cbn. rewrite <- app_assoc. reflexivity. }
      destruct (run c rest (l_x l) (l_P l)).
      * destruct Hd as [-> Hd]. split; [reflexivity|].
        rewrite Hd. destruct b. cbn. rewrite <- app_assoc. reflexivity.
      * destruct Hd as [Hk Hd]. split; [cbn [length]; lia|].
        rewrite Hd. destruct b. cbn. rewrite <- app_assoc. reflexivity.
    + cbn [fst snd]. split; [reflexivity|]. exists 0%nat.
      rewrite map_add_0. cbn [firstn map length].
      destruct b. cbn. rewrite !app_nil_r.
      repeat split; try reflexivity. lia.
Qed.

Lemma Forall_snoc {A : Type} (Q : A -> Prop) (l : list A) (a : A) :
  Forall Q l -> Q a -> Forall Q (l ++ [a]).
Proof.
  intros Hl Ha. apply Forall_app. split; [assumption | repeat constructor].
  assumption.
Qed.

Lemma variances_savestates (x Z P K : matrix) (b : Plot.buffers) :
  diag_nonneg P -> length P = 5%nat ->
  nonneg_lists (Plot.variances b) ->
  nonneg_lists (Plot.variances (savestates x Z P K b)).
Proof.
  intros Hd Hl Hb. unfold nonneg_lists in *.
  destruct b.
  cbv [Plot.variances savestates Plot.Px Plot.Py Plot.Pdx Plot.Pdy
       Plot.Pddx] in *.
  repeat match goal with
         | H : Forall _ (_ :: _) |- _ => inversion H; clear H; subst
         end.
  repeat (apply Forall_cons; [apply Forall_snoc;
            [assumption | apply Hd; rewrite Hl; lia]|]).
  constructor.
Qed.

Lemma variances_append_dstate (yr : R) (b : Plot.buffers) :
  Plot.variances (append_dstate yr b) = Plot.variances b.
Proof. destruct b. reflexivity. Qed.

Lemma dstate_savestates (x Z P K : matrix) (yr : R) (b : Plot.buffers) :
  Plot.dstate (savestates x Z P K (append_dstate yr b))
  = Plot.dstate b ++ [dstate_entry yr].
Proof. destruct b. reflexivity. Qed.

Lemma saved_append_dstate (yr : R) (b : Plot.buffers) :
  Plot.saved (append_dstate yr b) = Plot.saved b.
Proof. destruct b. reflexivity. Qed.

(** What the loop with the buffers keeps, pass after pass, on a covariance
    [P]. *)
Lemma run_log_invariants
  (c : Config) (samples : list Sample) (x P : matrix) (b : Plot.buffers) :
  shape 5 1 x -> covariance P -> covariance (c_Q c) ->
  shape 2 2 (c_R c) -> symmetric (c_R c) -> pd (c_R c) ->
  nonneg_lists (Plot.variances b) ->
  exists b' x' P',
    run_log c samples x P b = (b', Some (x', P')) /\
    shape 5 1 x' /\ covariance P' /\
    nonneg_lists (Plot.variances b') /\
    map (@length R) (Plot.saved b')
    = map (fun n => (n + length samples)%nat)
          (map (@length R) (Plot.saved b)) /\
    length (Plot.dstate b')
    = (length (Plot.dstate b) + length samples)%nat.
Proof.
  intros Hx Hc HQ HR HsR HpR. revert x P b Hx Hc.
  induction samples as [|s rest IH]; intros x P b Hx Hc Hb.
  - exists b, x, P. split; [reflexivity|].
    cbn [length]. rewrite map_add_0, Nat.add_0_r. auto.
  - destruct (filterstep_covariance c s x P Hx Hc HQ HR HsR HpR)
      as (l & El & Hlx & Hlc & _ & _).
    cbn [run_log]. rewrite filterstep_log_eq, El.
    destruct (covariance_facts _ Hlc) as (Hsh & _ & _ & Hdn).
    destruct (IH (l_x l) (l_P l)
                (savestates (l_x l) (l_Z l) (l_P l) (l_K l)
                            (append_dstate (yawrate s) b)) Hlx Hlc)
      as (b' & x' & P' & Erun & Hx' & Hc' & Hnn & Hlen & Hds).
    { apply variances_savestates; [assumption | apply Hsh |].
      rewrite variances_append_dstate. assumption. }
    exists b', x', P'. split; [exact Erun|].
    repeat (split; [assumption|]). split.
    + rewrite Hlen, saved_savestates, saved_append_dstate, !map_map.
      apply map_ext. intros n. cbn [length]. lia.
    + rewrite Hds, dstate_savestates, length_app. cbn [length]. lia.
Qed.

Lemma run_log_snd (c : Config) (samples : list Sample) (x P : matrix)
  (b : Plot.buffers) :
  snd (run_log c samples x P b) = run c samples x P.
Proof.
  revert x P b. induction samples as [|s rest IH]; intros x P b;
    [reflexivity|].
  cbn [run_log run]. rewrite filterstep_log_eq.
  destruct (filterstep c s x P); [apply IH | reflexivity].
Qed.

(** X11: with a symmetric positive-semidefinite [P] and [Q] and a symmetric
    positive-definite [R], over every list of samples on which no pass
    divides by zero, the loop with the buffers completes and every variance
    it has appended to [Px], [Py], [Pdx], [Pdy], [Pddx] is non-negative. *)
Theorem X11_logged_variances_nonnegative
  (c : Config) (samples : list Sample) (x P : matrix) (b : Plot.buffers) :
  shape 5 1 x -> shape 5 5 P -> symmetric P -> psd P ->
  covariance (c_Q c) ->
  shape 2 2 (c_R c) -> symmetric (c_R c) -> pd (c_R c) ->
  nonneg_lists (Plot.variances b) ->
  checked_run c samples x P <> NotANumber ->
  exists b' x' P',
    run_log c samples x P b = (b', Some (x', P')) /\
    checked_run c samples x P = Done (x', P') /\
    nonneg_lists (Plot.variances b').
Proof.
  intros Hx HP HsP HpP HQ HR HsR HpR Hb Hn.
  assert (Hc : covariance P) by (repeat split; try assumption; apply HP).
  destruct (run_log_invariants c samples x P b Hx Hc HQ HR HsR HpR Hb)
    as (b' & x' & P' & E & _ & _ & Hnn & _).
  exists b', x', P'. split; [exact E|]. split; [|exact Hnn].
  apply checked_run_done; [assumption|].
  rewrite <- (run_log_snd c samples x P b), E. reflexivity.
Qed.

Lemma gains_savestates_zero (x Z P : matrix) (yr : R) (b : Plot.buffers) :
  Plot.gains (savestates x Z P (zeros 5 2) (append_dstate yr b))
  = map (fun l => l ++ [0]) (Plot.gains b).
Proof. destruct b. reflexivity. Qed.

Lemma app_repeat_S (l : list R) (n : nat) :
  (l ++ [0]) ++ repeat 0 n = l ++ repeat 0 (S n).
Proof. rewrite <- app_assoc. reflexivity. Qed.

(** X12: over samples that all lack a position fix and on which no pass
    divides by zero (5x1 state, 5x5 [P] and [Q], invertible 2x2 [R]) the
    loop completes, the state it ends with is the one the time updates
    alone produce, and every gain it has appended to [Kx], [Ky], [Kdx],
    [Kdy], [Kddx] is exactly 0. *)
Theorem X12_outage_is_dead_reckoning
  (c : Config) (samples : list Sample) (x P : matrix) (b : Plot.buffers) :
  Forall (fun s => GPS s = false) samples ->
  shape 5 1 x -> shape 5 5 P -> shape 5 5 (c_Q c) ->
  shape 2 2 (c_R c) -> det2 (c_R c) <> 0 ->
  checked_run c samples x P <> NotANumber ->
  exists b' P',
    run_log c samples x P b
    = (b', Some (dead_reckoning c samples x, P')) /\
    checked_run c samples x P = Done (dead_reckoning c samples x, P') /\
    Plot.gains b'
    = map (fun l => l ++ repeat 0 (length samples)) (Plot.gains b).
Proof.
  intros Hg Hx HP HQ HR Hd Hn.
  assert (E : exists b' P',
             run_log c samples x P b
             = (b', Some (dead_reckoning c samples x, P')) /\
             Plot.gains b'
             = map (fun l => l ++ repeat 0 (length samples))
                   (Plot.gains b)).
  { clear Hn. revert x P b Hx HP.
    induction Hg as [|s rest Hs Hrest IH]; intros x P b Hx HP.
    - exists b, P. split; [reflexivity|].
      cbn [length repeat]. rewrite <- (map_id (Plot.gains b)) at 1.
      apply map_ext. intros l. rewrite app_nil_r. reflexivity.
    - cbn [run_log]. rewrite filterstep_log_eq.
      rewrite (filterstep_no_fix c s x P Hs Hx HP HQ HR Hd).
      cbn [l_x l_P l_Z l_K].
      destruct (IH (project_state (yawrate s) (c_dt c) x)
                   (project_cov (JA (c_dt c)
                                    (project_state (yawrate s) (c_dt c) x))
                                P (c_Q c))
                   (savestates (project_state (yawrate s) (c_dt c) x)
                      (Z_of s)
                      (project_cov
                         (JA (c_dt c)
                             (project_state (yawrate s) (c_dt c) x))
                         P (c_Q c))
                      (zeros 5 2) (append_dstate (yawrate s) b)))
        as (b' & P' & Erun & Hgain).
      + apply shape_project_state. assumption.
      + apply shape_project_cov; try assumption. apply shape_JA.
      + exists b', P'. split; [exact Erun|].
        rewrite Hgain, gains_savestates_zero, map_map.
        apply map_ext. intros l. cbn [length]. apply app_repeat_S. }
  destruct E as (b' & P' & Erun & Hgain).
  exists b', P'. split; [exact Erun|]. split; [|exact Hgain].
  apply checked_run_done; [assumption|].
  rewrite <- (run_log_snd c samples x P b), Erun. reflexivity.
Qed.

Lemma X12_outage_is_dead_reckoning_witness :
  exists b' P',
    run_log notebook [mkSample 1 false 1 2; mkSample 0 false 1 2]
            [[0]; [0]; [0]; [10]; [1 / 10]] P0 Plot.empty
    = (b', Some (dead_reckoning notebook
                   [mkSample 1 false 1 2; mkSample 0 false 1 2]
                   [[0]; [0]; [0]; [10]; [1 / 10]], P')) /\
    checked_run notebook [mkSample 1 false 1 2; mkSample 0 false 1 2]
                [[0]; [0]; [0]; [10]; [1 / 10]] P0
    = Done (dead_reckoning notebook
              [mkSample 1 false 1 2; mkSample 0 false 1 2]
              [[0]; [0]; [0]; [10]; [1 / 10]], P') /\
    Plot.gains b'
    = map (fun l => l ++ repeat 0 2) (Plot.gains Plot.empty).
Proof.
  apply (X12_outage_is_dead_reckoning notebook
           [mkSample 1 false 1 2; mkSample 0 false 1 2]
           [[0]; [0]; [0]; [10]; [1 / 10]] P0 Plot.empty).
  - repeat constructor.
  - apply shape_lit_5_1.
  - exact shape_P0.
  - exact shape_Q.
  - exact shape_R_.
  - exact det2_R_.
  - apply checked_run_two.
    + apply zero_divisor_false. right. cbv [item nth]. lra.
    + exact Rabs0_lt_eps.
Defined.

Lemma X11_logged_variances_nonnegative_witness :
  exists b' x' P',
    run_log notebook [mkSample 1 true 1 2; mkSample 0 false 1 2]
            [[0]; [0]; [0]; [10]; [1 / 10]] P0 Plot.empty
    = (b', Some (x', P')) /\
    checked_run notebook [mkSample 1 true 1 2; mkSample 0 false 1 2]
                [[0]; [0]; [0]; [10]; [1 / 10]] P0 = Done (x', P') /\
    nonneg_lists (Plot.variances b').
Proof.
  apply (X11_logged_variances_nonnegative notebook
           [mkSample 1 true 1 2; mkSample 0 false 1 2]
           [[0]; [0]; [0]; [10]; [1 / 10]] P0 Plot.empty).
  - apply shape_lit_5_1.
  - exact shape_P0.
  - reflexivity.
  - apply covariance_P0.
  - exact covariance_Q.
  - exact shape_R_.
  - exact symmetric_R_.
  - exact pd_R_.
  - repeat constructor.
  - apply checked_run_two.
    + apply zero_divisor_false. right. cbv [item nth]. lra.
    + exact Rabs0_lt_eps.
Defined.

(** ** The columns of the file *)

Lemma length_zip (f : R -> R -> R) (u v : list R) :
  length (zip f u v) = Nat.min (length u) (length v).
Proof.
  revert v. induction u as [|a u IH]; intros [|b v]; cbn; auto.
Qed.

Lemma nth_zip (f : R -> R -> R) (u v : list R) (k : nat) (d du dv : R) :
  (k < length u)%nat -> (k < length v)%nat ->
  nth k (zip f u v) d = f (nth k u du) (nth k v dv).
Proof.
  revert v k. induction u as [|a u IH]; intros [|b v] k Hu Hv;
    cbn in *; try lia.
  destruct k as [|k]; [reflexivity|]. apply IH; lia.
Qed.

Lemma length_np_diff (l : list R) : length (np_diff l) = pred (length l).
Proof.
  induction l as [|a [|b t] IH]; cbn in *; auto.
Qed.

Lemma nth_np_diff (l : list R) (k : nat) :
  (S k < length l)%nat ->
  nth k (np_diff l) 0 = nth (S k) l 0 - nth k l 0.
Proof.
  revert k. induction l as [|a [|b t] IH]; intros k Hk; cbn in Hk; try lia.
  destruct k as [|k]; [reflexivity|].
  change (nth k (np_diff (b :: t)) 0 = nth (S k) (b :: t) 0 - nth k (b :: t) 0).
  apply IH. cbn. lia.
Qed.

Lemma length_cumsum_from (acc : R) (l : list R) :
  length (cumsum_from acc l) = length l.
Proof.
  revert acc. induction l as [|a l IH]; intros acc; cbn; auto.
Qed.

Lemma length_cumsum (l : list R) : length (cumsum l) = length l.
Proof.
  destruct l; cbn; [reflexivity|]. rewrite length_cumsum_from. reflexivity.
Qed.

Lemma nth_cumsum_from_step (acc : R) (l : list R) (k : nat) :
  (S k < length l)%nat ->
  nth (S k) (cumsum_from acc l) 0
  = nth k (cumsum_from acc l) 0 + nth (S k) l 0.
Proof.
  revert acc k. induction l as [|a l IH]; intros acc k Hk; cbn in Hk; [lia|].
  destruct l as [|b l]; [cbn in Hk; lia|].
  destruct k as [|k]; [reflexivity|].
  change (nth (S k) (cumsum_from (acc + a) (b :: l)) 0
          = nth k (cumsum_from (acc + a) (b :: l)) 0 + nth (S k) (b :: l) 0).
  apply IH. cbn in *. lia.
Qed.

(** Each entry of [np.cumsum] is the one before plus the summand. *)
Lemma nth_cumsum_step (l : list R) (k : nat) :
  (S k < length l)%nat ->
  nth (S k) (cumsum l) 0 = nth k (cumsum l) 0 + nth (S k) l 0.
Proof.
  destruct l as [|a l]; intros Hk; cbn in Hk; [lia|].
  destruct l as [|b l]; [cbn in Hk; lia|].
  destruct k as [|k]; [reflexivity|].
  change (nth k (cumsum_from a (b :: l)) 0) with
    (nth k (cumsum_from a (b :: l)) 0).
  cbn [cumsum].
  change (nth (S (S k)) (a :: cumsum_from a (b :: l)) 0)
    with (nth (S k) (cumsum_from a (b :: l)) 0).
  change (nth (S k) (a :: cumsum_from a (b :: l)) 0)
    with (nth k (cumsum_from a (b :: l)) 0).
  change (nth (S (S k)) (a :: b :: l) 0) with (nth (S k) (b :: l) 0).
  apply nth_cumsum_from_step. cbn in *. lia.
Qed.

Lemma nth_GPS_of (ds : list R) (k : nat) (d : bool) :
  (k < length ds)%nat ->
  nth k (GPS_of ds) d = if Req_dec_T (nth k ds 0) 0 then false else true.
Proof.
  intros Hk. unfold GPS_of.
  rewrite (nth_indep _ d (if Req_dec_T 0 0 then false else true))
    by (rewrite length_map; assumption).
  apply (map_nth (fun d => if Req_dec_T d 0 then false else true)).
Qed.

Lemma length_ds_of (dx dy : list R) :
  length (ds_of dx dy) = Nat.min (length dx) (length dy).
Proof.
  unfold ds_of. rewrite length_map, length_zip, !length_map. reflexivity.
Qed.

Lemma nth_ds_of (dx dy : list R) (k : nat) :
  (k < length dx)%nat -> (k < length dy)%nat ->
  nth k (ds_of dx dy) 0 = sqrt (nth k dx 0 ^ 2 + nth k dy 0 ^ 2).
Proof.
  intros Hx Hy. unfold ds_of.
  rewrite (nth_indep _ 0 (sqrt 0))
    by (rewrite length_map, length_zip, !length_map; lia).
  rewrite (map_nth sqrt).
  rewrite (nth_zip Rplus _ _ k 0 (0 ^ 2) (0 ^ 2))
    by (rewrite length_map; assumption).
  rewrite !(map_nth (fun a => a ^ 2)). reflexivity.
Qed.

Lemma sqrt_sum_sq_eq_0 (a b : R) :
  sqrt (a ^ 2 + b ^ 2) = 0 <-> a = 0 /\ b = 0.
Proof.
  split.
  - intros H. apply sqrt_eq_0 in H; [|nra].
    assert (0 <= a * a) by apply Rle_0_sqr.
    assert (0 <= b * b) by apply Rle_0_sqr.
    split; nra.
  - intros [-> ->]. replace (0 ^ 2 + 0 ^ 2) with 0 by ring. apply sqrt_0.
Qed.

Section Columns.
Variables latitude longitude altitude : list R.
Variable n : nat.
Hypothesis Hlat : length latitude = n.
Hypothesis Hlon : length longitude = n.
Hypothesis Halt : length altitude = n.
Hypothesis Hn : (2 <= n)%nat.

Local Abbreviation dx := (dx_of latitude longitude altitude).
Local Abbreviation dy := (dy_of latitude altitude).
Local Abbreviation mxs := (cumsum dx).
Local Abbreviation mys := (cumsum dy).
Local Abbreviation gps := (GPS_of (ds_of dx dy)).

Lemma length_dx : length dx = n.
Proof.
  unfold dx_of, arc_of. rewrite !length_zip, !length_map. cbn [length].
  rewrite length_np_diff. lia.
Qed.

Lemma length_dy : length dy = n.
Proof.
  unfold dy_of, arc_of. rewrite !length_zip, !length_map. cbn [length].
  rewrite length_np_diff. lia.
Qed.

Lemma length_gps : length gps = n.
Proof.
  unfold GPS_of. rewrite length_map, length_ds_of, length_dx, length_dy. lia.
Qed.

Lemma nth_dx (k : nat) :
  (k < n)%nat ->
  nth k dx 0
  = 2 * PI * (RadiusEarth + nth k altitude 0) / 360
    * cos (nth k latitude 0 * PI / 180)
    * nth k (0 :: np_diff longitude) 0.
Proof.
  intros Hk. unfold dx_of, arc_of.
  rewrite (nth_zip Rmult _ _ k 0 0 0);
    [| rewrite length_zip, !length_map; lia
     | cbn [length]; rewrite length_np_diff; lia].
  rewrite (nth_zip Rmult _ _ k 0
             (2 * PI * (RadiusEarth + 0) / 360) (cos (0 * PI / 180)))
    by (rewrite length_map; lia).
  rewrite (map_nth (fun h => 2 * PI * (RadiusEarth + h) / 360)).
  rewrite (map_nth (fun la => cos (la * PI / 180))). reflexivity.
Qed.

Lemma nth_dy (k : nat) :
  (k < n)%nat ->
  nth k dy 0
  = 2 * PI * (RadiusEarth + nth k altitude 0) / 360
    * nth k (0 :: np_diff latitude) 0.
Proof.
  intros Hk. unfold dy_of, arc_of.
  rewrite (nth_zip Rmult _ _ k 0 (2 * PI * (RadiusEarth + 0) / 360) 0);
    [| rewrite length_map; lia
     | cbn [length]; rewrite length_np_diff; lia].
  rewrite (map_nth (fun h => 2 * PI * (RadiusEarth + h) / 360)).
  reflexivity.
Qed.

Lemma nth_gps (k : nat) (d : bool) :
  (k < n)%nat ->
  nth k gps d = false <-> nth k dx 0 = 0 /\ nth k dy 0 = 0.
Proof.
  intros Hk.
  rewrite nth_GPS_of by (rewrite length_ds_of, length_dx, length_dy; lia).
  rewrite nth_ds_of by (rewrite ?length_dx, ?length_dy; lia).
  rewrite <- sqrt_sum_sq_eq_0.
  destruct (Req_dec_T _ 0); split; intros; try discriminate; tauto.
Qed.

End Columns.

(** X13: for columns of the same length [n >= 2], [mx], [my] and [GPS]
    have length [n]; the first position is the origin and the first sample
    never carries a fix, whatever the data. *)
Theorem X13_first_sample_is_origin_without_fix
  (latitude longitude altitude : list R) (n : nat) :
  length latitude = n -> length longitude = n -> length altitude = n ->
  (2 <= n)%nat ->
  let dx := dx_of latitude longitude altitude in
  let dy := dy_of latitude altitude in
  length (cumsum dx) = n /\ length (cumsum dy) = n /\
  length (GPS_of (ds_of dx dy)) = n /\
  nth 0 (cumsum dx) 1 = 0 /\ nth 0 (cumsum dy) 1 = 0 /\
  nth 0 (GPS_of (ds_of dx dy)) true = false.
Proof.
  intros Hlat Hlon Halt Hn dx dy. subst dx dy.
  assert (Hdx := length_dx latitude longitude altitude n Hlat Hlon Halt Hn).
  assert (Hdy := length_dy latitude longitude altitude n Hlat Hlon Halt Hn).
  assert (E0x : nth 0 (dx_of latitude longitude altitude) 0 = 0).
  { rewrite (nth_dx latitude longitude altitude n Hlat Hlon Halt Hn) by lia.
    cbn [nth]. ring. }
  assert (E0y : nth 0 (dy_of latitude altitude) 0 = 0).
  { rewrite (nth_dy latitude longitude altitude n Hlat Hlon Halt Hn) by lia.
    cbn [nth]. ring. }
  rewrite !length_cumsum.
  split; [assumption|]. split; [assumption|].
  split; [apply (length_gps latitude longitude altitude n); assumption|].
  split; [|split].
  - destruct (dx_of latitude longitude altitude) as [|a t];
      [cbn in Hdx; lia | exact E0x].
  - destruct (dy_of latitude altitude) as [|a t];
      [cbn in Hdy; lia | exact E0y].
  - apply (nth_gps latitude longitude altitude n Hlat Hlon Halt Hn); [lia|].
    auto.
Qed.

Lemma X13_first_sample_is_origin_without_fix_witness :
  let dx := dx_of [48; 49] [11; 12] [500; 510] in
  let dy := dy_of [48; 49] [500; 510] in
  length (cumsum dx) = 2%nat /\ length (cumsum dy) = 2%nat /\
  length (GPS_of (ds_of dx dy)) = 2%nat /\
  nth 0 (cumsum dx) 1 = 0 /\ nth 0 (cumsum dy) 1 = 0 /\
  nth 0 (GPS_of (ds_of dx dy)) true = false.
Proof.
  apply (X13_first_sample_is_origin_without_fix
           [48; 49] [11; 12] [500; 510] 2);
    first [reflexivity | apply le_n].
Defined.

(** X14: at every index [k+1] the fix flag is off exactly when the
    measurement column repeats the previous one: [GPS[k+1]] is false if and
    only if [mx[k+1] = mx[k]] and [my[k+1] = my[k]]. *)
Theorem X14_no_fix_iff_measurement_repeats
  (latitude longitude altitude : list R) (n k : nat) :
  length latitude = n -> length longitude = n -> length altitude = n ->
  (S k < n)%nat ->
  let dx := dx_of latitude longitude altitude in
  let dy := dy_of latitude altitude in
  nth (S k) (GPS_of (ds_of dx dy)) true = false <->
  nth (S k) (cumsum dx) 0 = nth k (cumsum dx) 0 /\
  nth (S k) (cumsum dy) 0 = nth k (cumsum dy) 0.
Proof.
  intros Hlat Hlon Halt Hk dx dy. subst dx dy.
  assert (Hn : (2 <= n)%nat) by lia.
  assert (Hdx := length_dx latitude longitude altitude n Hlat Hlon Halt Hn).
  assert (Hdy := length_dy latitude longitude altitude n Hlat Hlon Halt Hn).
  rewrite (nth_gps latitude longitude altitude n Hlat Hlon Halt Hn) by lia.
  rewrite !nth_cumsum_step by lia.
  split; intros [H1 H2]; split; lra.
Qed.

Lemma X14_no_fix_iff_measurement_repeats_witness :
  let dx := dx_of [48; 48; 49] [11; 11; 12] [500; 500; 510] in
  let dy := dy_of [48; 48; 49] [500; 500; 510] in
  nth 1 (GPS_of (ds_of dx dy)) true = false <->
  nth 1 (cumsum dx) 0 = nth 0 (cumsum dx) 0 /\
  nth 1 (cumsum dy) 0 = nth 0 (cumsum dy) 0.
Proof.
  apply (X14_no_fix_iff_measurement_repeats
           [48; 48; 49] [11; 11; 12] [500; 500; 510] 3 0);
    first [reflexivity | lia].
Defined.

Lemma nth_S_hstack (l : list R) (k : nat) :
  (S k < length l)%nat ->
  nth (S k) (0 :: np_diff l) 0 = nth (S k) l 0 - nth k l 0.
Proof. intros Hk. cbn [nth]. apply nth_np_diff. assumption. Qed.

(** X15: a sample whose latitude and longitude repeat the previous ones
    carries no fix; a sample whose latitude differs from the previous one,
    at an altitude other than [-RadiusEarth], carries a fix. *)
Theorem X15_fix_flag_from_coordinates
  (latitude longitude altitude : list R) (n k : nat) :
  length latitude = n -> length longitude = n -> length altitude = n ->
  (S k < n)%nat ->
  let gps := GPS_of (ds_of (dx_of latitude longitude altitude)
                           (dy_of latitude altitude)) in
  (nth (S k) latitude 0 = nth k latitude 0 ->
   nth (S k) longitude 0 = nth k longitude 0 ->
   nth (S k) gps true = false) /\
  (nth (S k) latitude 0 <> nth k latitude 0 ->
   RadiusEarth + nth (S k) altitude 0 <> 0 ->
   nth (S k) gps false = true).
Proof.
  intros Hlat Hlon Halt Hk gps. subst gps.
  assert (Hn : (2 <= n)%nat) by lia.
  assert (Ex := nth_dx latitude longitude altitude n Hlat Hlon Halt Hn
                  (S k) Hk).
  assert (Ey := nth_dy latitude longitude altitude n Hlat Hlon Halt Hn (S k) Hk).
  rewrite nth_S_hstack in Ex, Ey by lia.
  split.
  - intros Hla Hlo.
    apply (nth_gps latitude longitude altitude n Hlat Hlon Halt Hn); [lia|].
    rewrite Ex, Ey, Hla, Hlo. split; ring.
  - intros Hla Hh.
    destruct (nth (S k) (GPS_of _) false) eqn:E; [reflexivity|].
    apply (nth_gps latitude longitude altitude n Hlat Hlon Halt Hn) in E;
      [|lia].
    destruct E as [_ E]. rewrite Ey in E.
    assert (Hpi := PI_RGT_0).
    apply Rmult_integral in E. destruct E as [E | E]; [|lra].
    exfalso. apply Hh.
    assert (E' : 2 * PI * (RadiusEarth + nth (S k) altitude 0) = 0) by lra.
    apply Rmult_integral in E'. destruct E' as [E' | E']; lra.
Qed.

Lemma X15_fix_flag_from_coordinates_witness :
  let gps := GPS_of (ds_of (dx_of [48; 48; 49] [11; 11; 12] [500; 500; 510])
                           (dy_of [48; 48; 49] [500; 500; 510])) in
  nth 1 gps true = false /\ nth 2 gps false = true.
Proof.
  intros gps. split.
  - apply (X15_fix_flag_from_coordinates
             [48; 48; 49] [11; 11; 12] [500; 500; 510] 3 0);
      first [reflexivity | lia].
  - apply (X15_fix_flag_from_coordinates
             [48; 48; 49] [11; 11; 12] [500; 500; 510] 3 1);
      first [reflexivity | lia | idtac].
    + cbn [nth]. lra.
    + cbn [nth]. unfold RadiusEarth. lra.
Defined.

Lemma round_trip_from (A la0 : R) (t : list R) :
  A <> 0 ->
  forall a acc, la0 + acc / A = a ->
  map (fun q => la0 + q)
      (zip Rdiv
           (cumsum_from acc (zip Rmult (repeat A (length t))
                                 (np_diff (a :: t))))
           (repeat A (length t)))
  = t.
Proof.
  intros HA. induction t as [|b t IH]; intros a acc Hacc; [reflexivity|].
  cbn [length repeat np_diff zip cumsum_from map].
  f_equal.
  - replace ((acc + A * (b - a)) / A) with (acc / A + (b - a))
      by (field; assumption).
    lra.
  - apply IH.
    replace ((acc + A * (b - a)) / A) with (acc / A + (b - a))
      by (field; assumption).
    lra.
Qed.

(** X16: at a constant altitude [h] other than [-RadiusEarth], converting
    the latitudes to [my] and converting [my] back with the formula of
    [latekf] gives the latitudes again. *)
Theorem X16_latitude_round_trip (latitude altitude : list R) (h : R) :
  length altitude = length latitude ->
  (2 <= length latitude)%nat ->
  Forall (eq h) altitude ->
  RadiusEarth + h <> 0 ->
  latekf latitude (cumsum (dy_of latitude altitude)) (arc_of altitude)
  = Some latitude.
Proof.
  intros Hlen Hn Hh Hne.
  apply Forall_eq_repeat in Hh. rewrite Hlen in Hh. rewrite Hh.
  destruct latitude as [|la0 t]; [cbn in Hn; lia|].
  unfold latekf, dy_of, arc_of. rewrite map_repeat.
  set (A := 2 * PI * (RadiusEarth + h) / 360).
  assert (HA : A <> 0).
  { subst A. assert (Hpi := PI_RGT_0). intros E.
    assert (E' : PI * (RadiusEarth + h) = 0) by lra.
    apply Rmult_integral in E'. destruct E'; lra. }
  cbn [length repeat zip cumsum map]. f_equal. f_equal.
  - field. assumption.
  - apply round_trip_from; [assumption|]. field. assumption.
Qed.

Lemma X16_latitude_round_trip_witness :
  latekf [48; 49; 47] (cumsum (dy_of [48; 49; 47] [500; 500; 500]))
         (arc_of [500; 500; 500])
  = Some [48; 49; 47].
Proof.
  apply (X16_latitude_round_trip [48; 49; 47] [500; 500; 500] 500).
  - reflexivity.
  - cbn [length]. lia.
  - repeat constructor.
  - unfold RadiusEarth. lra.
Defined.

(** ** The notebook from the columns to the end of the loop *)


Lemma initial_state_some (mx my course speed yawrate : list R) (n : nat) :
  length mx = n -> length my = n -> length course = n ->
  length speed = n -> length yawrate = n -> (1 <= n)%nat ->
  exists x,
    initial_state mx my course speed yawrate = Some x /\
    shape 5 1 x /\ item x 0 = nth 0 mx 0 /\ item x 1 = nth 0 my 0.
Proof.
  intros H1 H2 H3 H4 H5 Hn.
  destruct mx, my, course, speed, yawrate; cbn in *; try lia.
  eexists. split; [reflexivity|]. split; [shape_lit|]. split; reflexivity.
Qed.



(** The loop only appends: a list of the buffers that [savestates] extends
    by one entry keeps what it held. *)
Lemma run_log_prefix (f : Plot.buffers -> list R) :
  (forall x Z P K b, exists v, f (savestates x Z P K b) = f b ++ [v]) ->
  (forall yr b, f (append_dstate yr b) = f b) ->
  forall c samples x P b,
  exists t, f (fst (run_log c samples x P b)) = f b ++ t.
Proof.
  intros Hsave Hds c samples.
  induction samples as [|s rest IH]; intros x P b.
  - exists []. rewrite app_nil_r. reflexivity.
  - cbn [run_log]. rewrite filterstep_log_eq.
    destruct (filterstep c s x P) as [l|].
    + destruct (IH (l_x l) (l_P l)
                  (savestates (l_x l) (l_Z l) (l_P l) (l_K l)
                              (append_dstate (yawrate s) b))) as [t Ht].
      destruct (Hsave (l_x l) (l_Z l) (l_P l) (l_K l)
                  (append_dstate (yawrate s) b)) as [v Hv].
      exists (v :: t). rewrite Ht, Hv, Hds, <- app_assoc. reflexivity.
    + exists []. cbn [fst]. rewrite Hds, app_nil_r. reflexivity.
Qed.

Ltac prefix_of f :=
  apply (run_log_prefix f);
  [ intros ? ? ? ? [] ; eexists; reflexivity | intros ? []; reflexivity ].

(** X18: on columns of the same length [n >= 2] the first pass of the loop
    never has a fix: the first entry of each of [Kx], [Ky], [Kdx], [Kdy],
    [Kddx] is 0, and the first logged measurement ([Zx], [Zy]) is the
    origin. *)
Theorem X18_first_pass_has_zero_gain
  (latitude longitude altitude course speed yawrate : list R) (n : nat) :
  length latitude = n -> length longitude = n -> length altitude = n ->
  length course = n -> length speed = n -> length yawrate = n ->
  (2 <= n)%nat ->
  exists b r,
    notebook_run latitude longitude altitude course speed yawrate
    = Some (b, r) /\
    Forall (fun l => nth 0 l 1 = 0) (Plot.gains b) /\
    nth 0 (Plot.Zx b) 1 = 0 /\ nth 0 (Plot.Zy b) 1 = 0.
Proof.
  intros Hlat Hlon Halt Hco Hsp Hyr Hn. unfold notebook_run.
  assert (Hdx := length_dx latitude longitude altitude n Hlat Hlon Halt Hn).
  assert (Hdy := length_dy latitude longitude altitude n Hlat Hlon Halt Hn).
  assert (Hgps := length_gps latitude longitude altitude n
                    Hlat Hlon Halt Hn).
  assert (G0 : nth 0 (GPS_of (ds_of (dx_of latitude longitude altitude)
                                    (dy_of latitude altitude))) true
               = false).
  { apply (nth_gps latitude longitude altitude n Hlat Hlon Halt Hn); [lia|].
    rewrite (nth_dx latitude longitude altitude n Hlat Hlon Halt Hn) by lia.
    rewrite (nth_dy latitude longitude altitude n Hlat Hlon Halt Hn) by lia.
    cbn [nth]. split; ring. }
  assert (X0 : nth 0 (cumsum (dx_of latitude longitude altitude)) 1 = 0).
  { assert (E := nth_dx latitude longitude altitude n Hlat Hlon Halt Hn 0).
    destruct (dx_of latitude longitude altitude) as [|a t];
      [cbn in Hdx; lia|].
    cbn [cumsum nth] in *. rewrite E by lia. ring. }
  assert (Y0 : nth 0 (cumsum (dy_of latitude altitude)) 1 = 0).
  { assert (E := nth_dy latitude longitude altitude n Hlat Hlon Halt Hn 0).
    destruct (dy_of latitude altitude) as [|a t]; [cbn in Hdy; lia|].
    cbn [cumsum nth] in *. rewrite E by lia. ring. }
  destruct (initial_state_some
              (cumsum (dx_of latitude longitude altitude))
              (cumsum (dy_of latitude altitude))
              (course_offset course) speed yawrate n)
    as (x0 & E0 & Hx0 & _); try assumption.
  { rewrite length_cumsum. assumption. }
  { rewrite length_cumsum. assumption. }
  { unfold course_offset. rewrite length_map. assumption. }
  { lia. }
  rewrite E0.
  assert (Hmx : length (cumsum (dx_of latitude longitude altitude)) = n)
    by (rewrite length_cumsum; assumption).
  assert (Hmy : length (cumsum (dy_of latitude altitude)) = n)
    by (rewrite length_cumsum; assumption).
  destruct yawrate as [|w yawrate]; [cbn in Hyr; lia|].
  destruct (GPS_of _) as [|g gps]; [cbn in Hgps; lia|].
  destruct (cumsum (dx_of latitude longitude altitude)) as [|a mxs];
    [cbn in Hmx; lia|].
  destruct (cumsum (dy_of latitude altitude)) as [|a' mys];
    [cbn in Hmy; lia|].
  cbn [nth] in G0, X0, Y0. subst g a a'.
  cbn [samples_of run_log]. rewrite filterstep_log_eq.
  rewrite (filterstep_no_fix notebook (mkSample w false 0 0) x0 P0
             eq_refl Hx0 shape_P0 shape_Q shape_R_ det2_R_).
  cbn [l_x l_P l_Z l_K].
  match goal with
  | |- context [run_log ?c ?ss ?x ?P ?b] =>
      set (b1 := b); set (rl := run_log c ss x P b1);
      assert (HKx : exists t, Plot.Kx (fst rl) = Plot.Kx b1 ++ t)
        by (subst rl; prefix_of Plot.Kx);
      assert (HKy : exists t, Plot.Ky (fst rl) = Plot.Ky b1 ++ t)
        by (subst rl; prefix_of Plot.Ky);
      assert (HKdx : exists t, Plot.Kdx (fst rl) = Plot.Kdx b1 ++ t)
        by (subst rl; prefix_of Plot.Kdx);
      assert (HKdy : exists t, Plot.Kdy (fst rl) = Plot.Kdy b1 ++ t)
        by (subst rl; prefix_of Plot.Kdy);
      assert (HKddx : exists t, Plot.Kddx (fst rl) = Plot.Kddx b1 ++ t)
        by (subst rl; prefix_of Plot.Kddx);
      assert (HZx : exists t, Plot.Zx (fst rl) = Plot.Zx b1 ++ t)
        by (subst rl; prefix_of Plot.Zx);
      assert (HZy : exists t, Plot.Zy (fst rl) = Plot.Zy b1 ++ t)
        by (subst rl; prefix_of Plot.Zy)
  end.
  destruct rl as [b r]. cbn [fst] in *.
  exists b, r. split; [reflexivity|].
  destruct HKx as [? HKx], HKy as [? HKy], HKdx as [? HKdx],
           HKdy as [? HKdy], HKddx as [? HKddx],
           HZx as [? HZx], HZy as [? HZy].
  unfold Plot.gains. rewrite HKx, HKy, HKdx, HKdy, HKddx, HZx, HZy.
  repeat split; repeat constructor.
Qed.

Lemma X18_first_pass_has_zero_gain_witness :
  exists b r,
    notebook_run [48; 48; 49] [11; 11; 12] [500; 500; 510]
                 [90; 80; 70] [36; 36; 40] [0; 1; 2]
    = Some (b, r) /\
    Forall (fun l => nth 0 l 1 = 0) (Plot.gains b) /\
    nth 0 (Plot.Zx b) 1 = 0 /\ nth 0 (Plot.Zy b) 1 = 0.
Proof.
  apply (X18_first_pass_has_zero_gain
           [48; 48; 49] [11; 11; 12] [500; 500; 510]
           [90; 80; 70] [36; 36; 40] [0; 1; 2] 3);
    first [reflexivity | lia].
Defined.

Lemma zip_repeat (A C : R) (k : nat) :
  zip Rmult (repeat A k) (repeat C k) = repeat (A * C) k.
Proof. induction k as [|k IH]; cbn; [reflexivity | f_equal; exact IH]. Qed.

(** X19: along a parallel (constant latitude [la] with a non-zero cosine)
    at a constant altitude [h] other than [-RadiusEarth], converting the
    longitudes to [mx] and converting [mx] back with the formula of
    [lonekf] gives the longitudes again. *)
Theorem X19_longitude_round_trip
  (latitude longitude altitude : list R) (la h : R) :
  length latitude = length longitude ->
  length altitude = length longitude ->
  (2 <= length longitude)%nat ->
  Forall (eq la) latitude -> Forall (eq h) altitude ->
  RadiusEarth + h <> 0 -> cos (la * PI / 180) <> 0 ->
  lonekf latitude longitude
         (cumsum (dx_of latitude longitude altitude)) (arc_of altitude)
  = Some longitude.
Proof.
  intros Hla Hal Hn Hl Hh Hne Hc.
  apply Forall_eq_repeat in Hh. rewrite Hal in Hh. rewrite Hh.
  apply Forall_eq_repeat in Hl. rewrite Hla in Hl. rewrite Hl.
  destruct longitude as [|lo0 t]; [cbn in Hn; lia|].
  unfold lonekf, dx_of, arc_of. rewrite !map_repeat, !zip_repeat.
  set (A := 2 * PI * (RadiusEarth + h) / 360 * cos (la * PI / 180)).
  assert (HA : A <> 0).
  { subst A. assert (Hpi := PI_RGT_0). intros E.
    apply Rmult_integral in E. destruct E as [E | E]; [|contradiction].
    assert (E' : PI * (RadiusEarth + h) = 0) by lra.
    apply Rmult_integral in E'. destruct E'; lra. }
  cbn [length repeat zip cumsum map]. f_equal. f_equal.
  - field. assumption.
  - apply round_trip_from; [assumption|]. field. assumption.
Qed.

Lemma X19_longitude_round_trip_witness :
  lonekf [0; 0; 0] [11; 12; 10]
         (cumsum (dx_of [0; 0; 0] [11; 12; 10] [500; 500; 500]))
         (arc_of [500; 500; 500])
  = Some [11; 12; 10].
Proof.
  apply (X19_longitude_round_trip [0; 0; 0] [11; 12; 10] [500; 500; 500]
           0 500).
  - reflexivity.
  - reflexivity.
  - cbn [length]. lia.
  - repeat constructor.
  - repeat constructor.
  - unfold RadiusEarth. lra.
  - replace (0 * PI / 180) with 0 by field. rewrite cos_0. lra.
Defined.

(** ** Moving the origin *)

Lemma project_state_translate (yr dt a b : R) (x : matrix) :
  shape 5 1 x ->
  project_state yr dt (translate a b x)
  = translate a b (project_state yr dt x).
Proof.
  intros Hx. shape_inv Hx. unfold project_state.
  destruct (Rlt_dec (Rabs yr) (1 / 10000));
    cbv [straight turning translate setitem set_nth item nth];
    rows_eq; ring.
Qed.

Lemma JA_translate (dt a b : R) (x : matrix) :
  shape 5 1 x -> JA dt (translate a b x) = JA dt x.
Proof. intros Hx. shape_inv Hx. reflexivity. Qed.

Lemma add_translate (a b : R) (x K : matrix) (s : Sample) :
  shape 5 1 x -> shape 5 2 K ->
  add (translate a b x)
      (mul K (residual (Z_of (translate_sample a b s))
                       (hx (translate a b x))))
  = translate a b (add x (mul K (residual (Z_of s) (hx x)))).
Proof.
  intros Hx HK. shape_inv Hx. shape_inv HK.
  cbv [translate translate_sample setitem set_nth mx my Z_of].
  mat_red. rows_eq; ring.
Qed.

Lemma shape_translate (a b : R) (x : matrix) :
  shape 5 1 x -> shape 5 1 (translate a b x).
Proof. intros Hx. unfold translate. repeat apply shape_setitem. assumption. Qed.

(** X20: moving the state and the measurement column of a step by the same
    vector [(a, b)] moves the state the step ends with by [(a, b)] and
    changes neither its [P] nor its [K]; and the moved step raises exactly
    when the original one does. *)
Theorem X20_step_commutes_with_translation
  (c : Config) (s : Sample) (x P : matrix) (a b : R) :
  shape 5 1 x -> shape 5 5 P -> shape 5 5 (c_Q c) ->
  match filterstep c s x P,
        filterstep c (translate_sample a b s) (translate a b x) P with
  | Some l, Some l' =>
      l_x l' = translate a b (l_x l) /\ l_P l' = l_P l /\ l_K l' = l_K l
  | None, None => True
  | _, _ => False
  end.
Proof.
  intros Hx HP HQ. unfold filterstep. rewrite !time_update_eq.
  cbn [yawrate translate_sample].
  rewrite project_state_translate by assumption.
  assert (Hxp := shape_project_state (yawrate s) (c_dt c) x Hx).
  rewrite JA_translate by assumption.
  set (xp := project_state (yawrate s) (c_dt c) x) in *.
  set (Pp := project_cov (JA (c_dt c) xp) P (c_Q c)).
  assert (HPp : shape 5 5 Pp).
  { apply shape_project_cov; try assumption. apply shape_JA. }
  unfold measurement_update.
  change (GPS (translate_sample a b s)) with (GPS s).
  destruct (inv (innovation_cov (JH (GPS s)) Pp (c_R c))) as [Si|] eqn:Ei;
    [|exact I].
  cbn [l_x l_P l_K]. split; [|split; reflexivity].
  apply add_translate; [assumption|].
  unfold inv in Ei. destruct (Req_dec_T _ 0); [discriminate|].
  injection Ei as <-.
  apply shape_gain; [assumption | apply shape_adj_over_det].
Qed.

Lemma X20_step_commutes_with_translation_witness :
  match filterstep notebook (mkSample 1 false 3 4)
                   [[0]; [0]; [0]; [10]; [1 / 10]] P0,
        filterstep notebook (translate_sample 100 (-50) (mkSample 1 false 3 4))
                   (translate 100 (-50) [[0]; [0]; [0]; [10]; [1 / 10]]) P0
  with
  | Some l, Some l' =>
      l_x l' = translate 100 (-50) (l_x l) /\
      l_P l' = l_P l /\ l_K l' = l_K l
  | None, None => True
  | _, _ => False
  end.
Proof.
  apply (X20_step_commutes_with_translation notebook (mkSample 1 false 3 4)
           [[0]; [0]; [0]; [10]; [1 / 10]] P0 100 (-50)).
  - apply shape_lit_5_1.
  - exact shape_P0.
  - exact shape_Q.
Defined.
